(** * paip/logic.py: a small logic-programming engine

    A shallow embedding of the term classes ([Atom], [Var], [Relation],
    [Clause]), of [unify], of [Var.lookup] / [Relation.bind_vars], of the
    clause [Database] and of the backtracking prover [prove] / [prove_all].

    Conventions of the embedding:
    - a binding dictionary is a [gmap string term] keyed by the variable's
      name ([Var.__hash__] and [Var.__eq__] both go through [self.var]);
    - the value [False] that the engine uses for failure is [Failure];
    - recursion that the source does not bound (unification through a cyclic
      dictionary, expansion of [X -> f(X)], resolution itself) carries a
      recursion budget; [None] there means the budget ran out;
    - [logging.debug] calls have no effect on any result and are left out. *)

From stdpp Require Import gmap strings list fin_maps.
From Stdlib Require Import DecimalString DecimalNat.

#[local] Set Warnings "-register-all".

(** ** Terms *)

(** The four classes of the source.  [Atom.atom] is an opaque literal that is
    only ever compared with [==]; it is a string here. *)
Inductive term : Type :=
  | Atom (atom : string)
  | Var (var : string)
  | Relation (pred : string) (args : list term)
  | Clause (head : term) (body : list term).

(** Pairwise comparison of two Python lists with [==] on the elements. *)
Fixpoint list_eqb {A : Type} (eqb : A → A → bool) (xs ys : list A) : bool :=
  match xs, ys with
  | [], [] => true
  | x :: xs', y :: ys' => eqb x y && list_eqb eqb xs' ys'
  | _, _ => false
  end.

(** [__eq__] of the four classes: same class, same fields. *)
Fixpoint term_eqb (x y : term) {struct x} : bool :=
  match x, y with
  | Atom a, Atom b => bool_decide (b = a)
  | Var v, Var w => bool_decide (w = v)
  | Relation p xs, Relation q ys =>
      bool_decide (p = q) && list_eqb term_eqb xs ys
  | Clause h bs, Clause k cs => term_eqb h k && list_eqb term_eqb bs cs
  | _, _ => false
  end.

(** [t in l] on a Python list of terms. *)
Definition term_in (t : term) (l : list term) : bool :=
  existsb (term_eqb t) l.

(** ** Binding dictionaries *)

Abbreviation env := (gmap string term).

(** What [unify], [prove] and [prove_all] return: [False] or a dictionary. *)
Inductive result : Type :=
  | Failure
  | Env (e : env).

(** [x in bindings]: only a [Var] can be a key.  The other classes define
    [__eq__] without [__hash__], so (Python 2) they hash by identity and
    never compare equal to a [Var] key. *)
Definition bound (x : term) (e : env) : option term :=
  match x with
  | Var v => e !! v
  | _ => None
  end.

(** ** Unification *)

Section Unify.

(** The recursive calls, at the remaining budget. *)
Variable unify_rec : term → term → result → option result.

(** The [for i, xi in enumerate(...)] loops of [unify]: the pairs are
    unified in order, the dictionary of one step is the input of the next,
    and [False] leaves the loop at once. *)
Fixpoint unify_each (xs ys : list term) (b : result) : option result :=
  match xs, ys with
  | x :: xs', y :: ys' =>
      match unify_rec x y b with
      | None => None
      | Some Failure => Some Failure
      | Some (Env e) => unify_each xs' ys' (Env e)
      end
  | _, _ => Some b
  end.

End Unify.

Fixpoint unify (fuel : nat) (x y : term) (bindings : result)
    : option result :=
  match fuel with
  | 0 => None
  | S fuel' =>
      match bindings with
      | Failure => Some Failure
      | Env e =>
          if term_eqb x y then Some (Env e)
          else
            match x, y with
            | Var v, _ =>
                match e !! v with
                | Some bx => unify fuel' bx y (Env e)
                | None =>
                    match bound y e with
                    | Some by' => unify fuel' x by' (Env e)
                    | None => Some (Env (<[v := y]> e))
                    end
                end
            | _, Var _ => unify fuel' y x (Env e)
            | Relation p xs, Relation q ys =>
                if negb (bool_decide (p = q)) then Some Failure
                else if negb (bool_decide (length xs = length ys))
                then Some Failure
                else unify_each (unify fuel') xs ys (Env e)
            | Clause h bs, Clause k cs =>
                if negb (bool_decide (length bs = length cs))
                then Some Failure
                else
                  match unify fuel' h k (Env e) with
                  | None => None
                  | Some Failure => Some Failure
                  | Some (Env e') => unify_each (unify fuel') bs cs (Env e')
                  end
            | _, _ => Some Failure
            end
      end
  end.

(** ** Unification on the heap *)

(** [unify] above treats dictionaries as values.  To speak of mutation, the
    same function is given here over a heap of dictionary objects: a
    dictionary is known by its address, [dict(bindings)] allocates a new
    object, and [bindings[x] = y] overwrites the object at an address. *)
Abbreviation heap := (list env).

(** A value of the variable [bindings]: [False] or a reference. *)
Inductive pyval : Type :=
  | PFalse
  | PDict (addr : nat).

Section UnifyHeap.

Variable unify_rec : term → term → pyval → heap → option (pyval * heap).

(** The [for] loops of [unify], see [unify_each]. *)
Fixpoint unify_each_h (xs ys : list term) (b : pyval) (h : heap)
    : option (pyval * heap) :=
  match xs, ys with
  | x :: xs', y :: ys' =>
      match unify_rec x y b h with
      | None => None
      | Some (PFalse, h') => Some (PFalse, h')
      | Some (PDict a, h') => unify_each_h xs' ys' (PDict a) h'
      end
  | _, _ => Some (b, h)
  end.

End UnifyHeap.

(** [unify] with the heap made explicit.  A reference that points outside
    the heap cannot arise in Python; the model stops there. *)
Fixpoint unify_h (fuel : nat) (x y : term) (bindings : pyval) (h : heap)
    : option (pyval * heap) :=
  match fuel with
  | 0 => None
  | S fuel' =>
      match bindings with
      | PFalse => Some (PFalse, h)
      | PDict a =>
          match h !! a with
          | None => None
          | Some e =>
              (* bindings = dict(bindings) *)
              let copy := length h in
              let h1 := h ++ [e] in
              if term_eqb x y then Some (PDict copy, h1)
              else
                match x, y with
                | Var v, _ =>
                    match e !! v with
                    | Some bx => unify_h fuel' bx y (PDict copy) h1
                    | None =>
                        match bound y e with
                        | Some by' => unify_h fuel' x by' (PDict copy) h1
                        | None =>
                            (* bindings[x] = y *)
                            Some (PDict copy, <[copy := <[v := y]> e]> h1)
                        end
                    end
                | _, Var _ => unify_h fuel' y x (PDict copy) h1
                | Relation p xs, Relation q ys =>
                    if negb (bool_decide (p = q)) then Some (PFalse, h1)
                    else if negb (bool_decide (length xs = length ys))
                    then Some (PFalse, h1)
                    else unify_each_h (unify_h fuel') xs ys (PDict copy) h1
                | Clause hd bs, Clause k cs =>
                    if negb (bool_decide (length bs = length cs))
                    then Some (PFalse, h1)
                    else
                      match unify_h fuel' hd k (PDict copy) h1 with
                      | None => None
                      | Some (PFalse, h') => Some (PFalse, h')
                      | Some (PDict a', h') =>
                          unify_each_h (unify_h fuel') bs cs (PDict a') h'
                      end
                | _, _ => Some (PFalse, h1)
                end
          end
      end
  end.

(** The heap after a call extends the heap before it, and a returned
    reference lies at or above [lo]. *)
Definition grows (lo : nat) (h : heap) (res : pyval * heap) : Prop :=
  h `prefix_of` res.2 ∧
  ∀ a', res.1 = PDict a' → lo ≤ a' ∧ a' < length res.2.

(** The two forms of [unify] give the same answer: both run out of budget,
    both return [False], or the reference returned on the heap points to the
    dictionary returned as a value. *)
Definition agrees (o : option result) (oh : option (pyval * heap)) : Prop :=
  match o, oh with
  | None, None => True
  | Some Failure, Some (PFalse, _) => True
  | Some (Env e'), Some (PDict a', h') => h' !! a' = Some e'
  | _, _ => False
  end.

(** ** Dereferencing: [Var.lookup] and [Relation.bind_vars] *)

(** The [while] loop of [Var.lookup].  [binding] is the current binding and
    [encountered] the list of that name; one round replaces [binding] by
    [bindings.get(binding)] and appends it.  [n] bounds the number of
    rounds. *)
Fixpoint follow (n : nat) (e : env) (binding : term)
    (encountered : list term) {struct n} : option term :=
  match binding with
  | Var w =>
      match e !! w with
      | Some t =>
          if term_in t encountered then Some binding
          else
            match n with
            | 0 => None
            | S n' => follow n' e t (encountered ++ [t])
            end
      | None => Some binding
      end
  | _ => Some binding
  end.

Section BindArgs.

(** [arg.lookup(bindings)] for an [arg] that is a key of [bindings],
    given the value [bindings.get(arg)]. *)
Variable lookup_rec : string → term → env → option term.

(** The loop of [Relation.bind_vars]:
    [arg.lookup(bindings) if arg in bindings else arg]. *)
Fixpoint bind_args (args : list term) (e : env) : option (list term) :=
  match args with
  | [] => Some []
  | arg :: args' =>
      match
        match arg with
        | Var w =>
            match e !! w with
            | Some t => lookup_rec w t e
            | None => Some arg
            end
        | _ => Some arg
        end
      with
      | None => None
      | Some a =>
          match bind_args args' e with
          | None => None
          | Some bound' => Some (a :: bound')
          end
      end
  end.

End BindArgs.

(** [Var(v).lookup(bindings)] when [bindings.get(Var(v))] is the term [t]. *)
Fixpoint lookup_from (fuel : nat) (v : string) (t : term) (e : env)
    : option term :=
  match fuel with
  | 0 => None
  | S fuel' =>
      match follow fuel' e t [Var v; t] with
      | None => None
      | Some (Relation p args) =>
          match bind_args (lookup_from fuel') args e with
          | None => None
          | Some bound' => Some (Relation p bound')
          end
      | Some binding => Some binding
      end
  end.

(** [Var(v).lookup(bindings)].  The inner [None] is Python's [None], which
    [bindings.get(self)] gives for a variable that is not a key. *)
Definition lookup (fuel : nat) (v : string) (e : env)
    : option (option term) :=
  match e !! v with
  | None => Some None
  | Some t =>
      match lookup_from fuel v t e with
      | None => None
      | Some r => Some (Some r)
      end
  end.

(** [Relation(p, args).bind_vars(bindings)]. *)
Definition Relation_bind_vars (fuel : nat) (p : string) (args : list term)
    (e : env) : option term :=
  match bind_args (lookup_from fuel) args e with
  | None => None
  | Some bound' => Some (Relation p bound')
  end.

(** ** Outcomes of the stateful part *)

(** A call of the prover returns, raises a Python exception (an
    [AttributeError] on a value of the wrong class), or exceeds the
    recursion budget. *)
Inductive outcome (A : Type) : Type :=
  | Ret (a : A)
  | Raise
  | Exhausted.
Arguments Ret {A} a.
Arguments Raise {A}.
Arguments Exhausted {A}.

Definition bind {A B : Type} (m : outcome A) (k : A → outcome B)
    : outcome B :=
  match m with
  | Ret a => k a
  | Raise => Raise
  | Exhausted => Exhausted
  end.

Notation "'let*' x := m 'in' k" := (bind m (fun x => k))
  (at level 10, x name, m at level 100, k at level 200).
Notation "'let*' ' p := m 'in' k" := (bind m (fun p => k))
  (at level 10, p pattern, m at level 100, k at level 200).

(** A budgeted pure call inside the prover. *)
Definition budgeted {A : Type} (o : option A) : outcome A :=
  match o with
  | Some a => Ret a
  | None => Exhausted
  end.

(** ** Renaming and binding of clauses *)

(** [bind_vars] as a method call: [Relation] and [Clause] define it, [Atom]
    and [Var] do not. *)
Fixpoint bind_vars (fuel : nat) (t : term) (e : env) {struct t}
    : outcome term :=
  match t with
  | Relation p args => budgeted (Relation_bind_vars fuel p args e)
  | Clause h rs =>
      let* h' := bind_vars fuel h e in
      let* rs' := (fix each (rs : list term) : outcome (list term) :=
               match rs with
               | [] => Ret []
               | r :: rs' =>
                   let* r' := bind_vars fuel r e in
                   let* rest := each rs' in
                   Ret (r' :: rest)
               end) rs in
      Ret (Clause h' rs')
  | _ => Raise
  end.

(** [rename_vars]: all four classes define it. *)
Fixpoint rename_vars (t : term) (replacements : env) : term :=
  match t with
  | Atom a => Atom a
  | Var v => default (Var v) (replacements !! v)
  | Relation p args =>
      Relation p (map (fun arg => rename_vars arg replacements) args)
  | Clause h rs =>
      Clause (rename_vars h replacements)
             (map (fun r => rename_vars r replacements) rs)
  end.

(** [vars.extend(v for v in new if v not in vars)]: the generator is consumed
    while [vars] grows, so a name is added once. *)
Definition extend_new (vars new : list string) : list string :=
  fold_left (fun vars v => if bool_decide (v ∈ vars) then vars
                           else vars ++ [v]) new vars.

(** [get_vars]: the variables of a term in order of first occurrence, each
    [Var] given by its name. *)
Fixpoint get_vars (t : term) : list string :=
  match t with
  | Atom _ => []
  | Var v => [v]
  | Relation _ args =>
      fold_left (fun vars arg => extend_new vars (get_vars arg)) args []
  | Clause h rs =>
      fold_left (fun vars rel => extend_new vars (get_vars rel)) rs
                (get_vars h)
  end.

(** ['var%d' % n]. *)
Definition var_name (n : nat) : string :=
  "var" +:+ NilEmpty.string_of_uint (Nat.to_uint n).

(** The dictionary comprehension of [recursive_rename]:
    [{v: Var.get_unused_var() for v in vars}].  [Var.get_unused_var] is
    called once per element, in order, from counter value [n]; [renames] is
    the dictionary built so far. *)
Fixpoint renames_from (n : nat) (vars : list string) (renames : env) : env :=
  match vars with
  | [] => renames
  | v :: vars' =>
      renames_from (S n) vars' (<[v := Var (var_name n)]> renames)
  end.

(** ** The database and the prover state *)

Section Resolution.

(** The procedures that [define_primitive] stores are host callables; they
    are named by [prim] and run by [call_prim] below. *)
Context {prim : Type}.

(** What the dictionary [Database.clauses] holds under a name. *)
Inductive entry : Type :=
  | Clauses (cs : list term)
  | Primitive (fn : prim).

(** The mutable state that a proof threads: the one [Database] object and
    the class attribute [Var.counter]. *)
Record state : Type := State {
  clauses : gmap string entry;
  counter : nat
}.

(** [Database.store]. *)
Definition store (clause : term) (st : state) : outcome state :=
  match clause with
  | Clause (Relation p _) _ =>
      match clauses st !! p with
      | None => Ret (State (<[p := Clauses [clause]]> (clauses st))
                           (counter st))
      | Some (Clauses cs) =>
          Ret (State (<[p := Clauses (cs ++ [clause])]> (clauses st))
                     (counter st))
      | Some (Primitive _) => Raise
      end
  | _ => Raise
  end.

(** [Database.define_primitive]. *)
Definition define_primitive (name : string) (fn : prim) (st : state)
    : state :=
  State (<[name := Primitive fn]> (clauses st)) (counter st).

(** [Database.query]: [self.clauses.setdefault(pred, [])]. *)
Definition query (p : string) (st : state) : entry * state :=
  match clauses st !! p with
  | Some en => (en, st)
  | None => (Clauses [], State (<[p := Clauses []]> (clauses st))
                               (counter st))
  end.

(** [Database(facts, rules)] with [Var.counter] at [n]: the clauses of
    [facts + rules] are stored in order. *)
Fixpoint store_all (cs : list term) (st : state) : outcome state :=
  match cs with
  | [] => Ret st
  | c :: cs' => let* st' := store c st in store_all cs' st'
  end.

Definition Database (facts rules : list term) (n : nat) : outcome state :=
  store_all (facts ++ rules) (State ∅ n).

(** [Clause.recursive_rename]; no other class has the method. *)
Definition recursive_rename (clause : term) (st : state)
    : outcome (term * state) :=
  match clause with
  | Clause _ _ =>
      let vars := get_vars clause in
      Ret (rename_vars clause (renames_from (counter st) vars ∅),
           State (clauses st) (counter st + length vars))
  | _ => Raise
  end.

(** [not bindings] on what [unify] or [prove_all] returned: [False] and
    the empty dictionary are both falsy. *)
Definition falsy (r : result) : bool :=
  match r with
  | Failure => true
  | Env e => bool_decide (e = ∅)
  end.

(** A primitive is called as [fn(goal.args, bindings, db, remaining)]; it
    may call [prove_all], which it gets as its first argument here, and it
    may change the state.  The candidate loop below runs over the sequence
    as [query] returned it: a primitive that stores clauses under the very
    predicate being tried is outside this model. *)
Variable call_prim :
  prim →
  (list term → result → state → outcome (result * state)) →
  list term → env → list term → state → outcome (result * state).

Section Candidates.

Variable prove_all_rec :
  list term → result → state → outcome (result * state).
Variable fuel : nat.
Variables (goal : term) (e : env) (remaining : list term).

(** The [for clause in query] loop of [prove]. *)
Fixpoint try_clauses (cs : list term) (st : state)
    : outcome (result * state) :=
  match cs with
  | [] => Ret (Failure, st)
  | clause :: cs' =>
      let* '(renamed, st1) := recursive_rename clause st in
      match renamed with
      | Clause rhead _ =>
          let* unified := budgeted (unify fuel goal rhead (Env e)) in
          match unified with
          | Failure => try_clauses cs' st1
          | Env u =>
              if falsy unified then try_clauses cs' st1
              else
                let* bound' := bind_vars fuel renamed u in
                match bound' with
                | Clause h' rs' =>
                    if term_in h' rs' then try_clauses cs' st1
                    else
                      let* '(extended, st2) :=
                        prove_all_rec (rs' ++ remaining) (Env u) st1 in
                      if falsy extended then try_clauses cs' st2
                      else Ret (extended, st2)
                | _ => Raise
                end
          end
      | _ => Raise
      end
  end.

End Candidates.

Fixpoint prove_all (fuel : nat) (goals : list term) (bindings : result)
    (st : state) {struct fuel} : outcome (result * state) :=
  match fuel with
  | 0 => Exhausted
  | S fuel' =>
      match bindings with
      | Failure => Ret (Failure, st)
      | Env e =>
          match goals with
          | [] => Ret (Env e, st)
          | g :: rest => prove fuel' g bindings rest st
          end
      end
  end
with prove (fuel : nat) (goal : term) (bindings : result)
    (remaining : list term) (st : state) {struct fuel}
    : outcome (result * state) :=
  match fuel with
  | 0 => Exhausted
  | S fuel' =>
      match bindings with
      | Failure => Ret (Failure, st)
      | Env e =>
          match goal with
          | Relation p args =>
              let '(q, st1) := query p st in
              match q with
              | Clauses [] => Ret (Failure, st1)
              | Primitive fn =>
                  call_prim fn (prove_all fuel') args e remaining st1
              | Clauses cs =>
                  try_clauses (prove_all fuel') fuel' goal e remaining
                              cs st1
              end
          | _ => Raise
          end
      end
  end.

End Resolution.

(** * Notions used in the statements *)

(** ** Classes of terms *)

(** [isinstance(t, Var)]. *)
Definition is_var (t : term) : bool :=
  match t with
  | Var _ => true
  | _ => false
  end.

(** [isinstance(t, Relation)]. *)
Definition is_relation (t : term) : bool :=
  match t with
  | Relation _ _ => true
  | _ => false
  end.

(** ** Results of [unify] *)

(** [unify(x, y, bindings)] returns [r]: some recursion budget is enough. *)
Definition unifies (x y : term) (b r : result) : Prop :=
  ∃ fuel, unify fuel x y b = Some r.

(** The rule for two relations in the words of the specification: the
    argument pairs are taken from left to right, each step starts from the
    dictionary of the step before, and the first pair that fails decides the
    result whatever comes after it.  [unify_rec] unifies one pair. *)
Inductive threaded (unify_rec : term → term → result → option result)
    : list term → list term → env → result → Prop :=
  | threaded_done e :
      threaded unify_rec [] [] e (Env e)
  | threaded_fail x xs y ys e :
      unify_rec x y (Env e) = Some Failure →
      threaded unify_rec (x :: xs) (y :: ys) e Failure
  | threaded_step x xs y ys e e' r :
      unify_rec x y (Env e) = Some (Env e') →
      threaded unify_rec xs ys e' r →
      threaded unify_rec (x :: xs) (y :: ys) e r.

(** What the specification says of [unify] on [Relation(p, xs)] and
    [Relation(q, ys)] under the dictionary [e]. *)
Inductive relations_rule (unify_rec : term → term → result → option result)
    (p : string) (xs : list term) (q : string) (ys : list term) (e : env)
    : result → Prop :=
  | rule_pred :
      p ≠ q → relations_rule unify_rec p xs q ys e Failure
  | rule_arity :
      length xs ≠ length ys → relations_rule unify_rec p xs q ys e Failure
  | rule_args r :
      p = q → length xs = length ys → threaded unify_rec xs ys e r →
      relations_rule unify_rec p xs q ys e r.

(** ** Chains of bindings *)

(** The chain-following of [Var.lookup] in the words of the specification:
    from the current binding, under the list of what was encountered, the
    walk stops at a term that is not a variable, at a variable without a
    binding, or at a variable whose binding was encountered before, and the
    term it stopped at is the result. *)
Inductive follows (e : env) : term → list term → term → Prop :=
  | follows_term t enc :
      is_var t = false → follows e t enc t
  | follows_unbound w enc :
      e !! w = None → follows e (Var w) enc (Var w)
  | follows_visited w t enc :
      e !! w = Some t → t ∈ enc → follows e (Var w) enc (Var w)
  | follows_next w t enc r :
      e !! w = Some t → t ∉ enc → follows e t (enc ++ [t]) r →
      follows e (Var w) enc r.

(** The values of the dictionary that are not in [enc] yet. *)
Definition unseen (e : env) (enc : list term) : list term :=
  filter (λ t, ¬ term_in t enc) (map_to_list e).*2.

(** The term at which the chain of the bound variable [v] ends. *)
Definition chain_end (e : env) (v : string) (r : term) : Prop :=
  ∃ t, e !! v = Some t ∧ follows e t [Var v; t] r.

(** Looking [v] up asks for [w]: the chain of [v] ends at a relation, and
    [w] is a bound variable among the direct arguments of that relation. *)
Definition expands (e : env) (v w : string) : Prop :=
  ∃ p args,
    chain_end e v (Relation p args) ∧ Var w ∈ args ∧ is_Some (e !! w).

(** [a] is what [Relation.bind_vars] puts in the place of the argument
    [arg]: the result of [arg.lookup(bindings)] when [arg] is a key of the
    dictionary, and [arg] itself otherwise. *)
Definition resolved (e : env) (arg a : term) : Prop :=
  match arg with
  | Var w =>
      match e !! w with
      | Some _ => ∃ fuel, lookup fuel w e = Some (Some a)
      | None => a = arg
      end
  | _ => a = arg
  end.

(** ** Conditions for the symmetry of [unify] *)

(** A term without variables. *)
Definition variable_free (t : term) : Prop := get_vars t = [].

(** A dictionary whose values are all without variables. *)
Definition variable_free_values (e : env) : Prop :=
  ∀ v t, e !! v = Some t → variable_free t.

(** A term without variables, or a variable that is a key of [e]. *)
Definition variable_free_or_bound (e : env) (t : term) : Prop :=
  variable_free t ∨ ∃ v, t = Var v ∧ is_Some (e !! v).

(** A dictionary that binds no variable to a variable. *)
Definition binds_terms_only (e : env) : Prop :=
  ∀ v t, e !! v = Some t → is_var t = false.

(** The chain of bindings from [t] ends at [a]: [a] is [t] itself when [t]
    is not a key of [e], and otherwise where the chain from the value of
    [t] ends. *)
Inductive ends (e : env) : term → term → Prop :=
  | ends_here t : bound t e = None → ends e t t
  | ends_step v t a : e !! v = Some t → ends e t a → ends e (Var v) a.

(** No variable is transitively bound to itself through variables. *)
Definition chains_end (e : env) : Prop := ∀ v, ∃ a, ends e (Var v) a.

(** Every binding of [e'] whose key is not a key of [e] has a value that is
    not a variable. *)
Definition binds_new_terms (e e' : env) : Prop :=
  ∀ v t, e !! v = None → e' !! v = Some t → is_var t = false.

(** Two terms, neither a variable, that differ at the top: in their
    class, or two atoms with different names, two relations with different
    predicates or arities, two clauses with bodies of different lengths. *)
Definition clash (x y : term) : Prop :=
  match x, y with
  | Var _, _ | _, Var _ => False
  | Atom a, Atom b => a ≠ b
  | Relation p xs, Relation q ys => p ≠ q ∨ length xs ≠ length ys
  | Clause _ bs, Clause _ cs => length bs ≠ length cs
  | _, _ => True
  end.

(** Two dictionaries resolve every variable alike, up to the choice of the
    unbound variable that stands for a group of variables bound to one
    another: the chain of a variable ends at the same term in both as soon
    as it ends at a term that is not a variable in one of them, and the
    chains of two variables end at the same term in the one when they do in
    the other. *)
Definition same_ends (e1 e2 : env) : Prop :=
  (∀ v a1 a2,
     ends e1 (Var v) a1 → ends e2 (Var v) a2 →
     is_var a1 = false ∨ is_var a2 = false → a1 = a2) ∧
  (∀ v w a1 b1 a2 b2,
     ends e1 (Var v) a1 → ends e1 (Var w) b1 →
     ends e2 (Var v) a2 → ends e2 (Var w) b2 →
     a1 = b1 ↔ a2 = b2).

(** The same, for dictionaries without cyclic chains of variables. *)
Definition same_bindings (e1 e2 : env) : Prop :=
  chains_end e1 ∧ chains_end e2 ∧ same_ends e1 e2.

(** Two results of [unify] that both are [False], or both are dictionaries
    that resolve every variable alike. *)
Definition same_result (r1 r2 : result) : Prop :=
  match r1, r2 with
  | Failure, Failure => True
  | Env e1, Env e2 => same_bindings e1 e2
  | _, _ => False
  end.

(** What a returning call [unify(x, y, e)] on a variable [y] has done, in
    terms of the ends [a] and [b] of the chains of [x] and [y]: nothing, a
    binding of one end to the other, or a returning call on the two ends
    within the budget. *)
Definition chain_outcome (fuel : nat) (e : env) (a b : term) (r : result)
    : Prop :=
  (a = b ∧ r = Env e) ∨
  (∃ u, a = Var u ∧ a ≠ b ∧ r = Env (<[u := b]> e)) ∨
  (∃ u, is_var a = false ∧ b = Var u ∧ r = Env (<[u := a]> e)) ∨
  (is_var a = false ∧ is_var b = false ∧ a ≠ b ∧
   ∃ fuel', fuel' < fuel ∧ unify fuel' b a (Env e) = Some r).

(** ** The database *)

(** The predicate name a clause is stored under: [clause.head.pred]. *)
Definition clause_pred (c : term) : option string :=
  match c with
  | Clause (Relation p _) _ => Some p
  | _ => None
  end.

(** The clauses of [cs] whose head has the predicate [name], in the order of
    [cs]. *)
Definition stored_under (name : string) (cs : list term) : list term :=
  filter (λ c, clause_pred c = Some name) cs.

(** The sequence held under [name], empty when there is none. *)
Definition sequence {prim : Type} (st : @state prim) (name : string)
    : list term :=
  match clauses st !! name with
  | Some (Clauses l) => l
  | _ => []
  end.

(** ** Concrete databases *)

(** A database without primitives: no callable is ever stored. *)
Definition no_primitives (fn : Empty_set)
    (k : list term → result → @state Empty_set
         → outcome (result * @state Empty_set))
    (args : list term) (e : env) (remaining : list term)
    (st : @state Empty_set) : outcome (result * @state Empty_set) :=
  match fn with end.

(** The fact [p(a)] and the database that holds just it. *)
Definition fact_pa : term := Clause (Relation "p" [Atom "a"]) [].
Definition db_pa : @state Empty_set :=
  State {["p" := Clauses [fact_pa]]} 0.

(** The rule [p(X) :- p(X)] and the database that holds just it. *)
Definition rule_loop : term :=
  Clause (Relation "p" [Var "X"]) [Relation "p" [Var "X"]].
Definition db_loop : @state Empty_set :=
  State {["p" := Clauses [rule_loop]]} 0.

(** The goal [p(f(a))], the rule [p(f(X)) :- p(f(a))] and the database that
    holds just that rule. *)
Definition goal_nested : term := Relation "p" [Relation "f" [Atom "a"]].
Definition rule_nested : term :=
  Clause (Relation "p" [Relation "f" [Var "X"]]) [goal_nested].
Definition db_nested : @state Empty_set :=
  State {["p" := Clauses [rule_nested]]} 0.

(** ** Variables of a term *)

(** [Var(v)] occurs in a term: it is the term, an argument of a relation at
    any depth, or in the head or the body of a clause. *)
Inductive occurs (v : string) : term → Prop :=
  | occurs_var :
      occurs v (Var v)
  | occurs_arg p args a :
      a ∈ args → occurs v a → occurs v (Relation p args)
  | occurs_head h rs :
      occurs v h → occurs v (Clause h rs)
  | occurs_body h rs r :
      r ∈ rs → occurs v r → occurs v (Clause h rs).

(** The name a variable is renamed to by [replacements.get(var, var)] when
    the replacement is a variable. *)
Definition renamed_to (replacements : env) (v : string) : string :=
  match replacements !! v with
  | Some (Var w) => w
  | _ => v
  end.

(** Nesting depth of a term. *)
Fixpoint depth (t : term) : nat :=
  match t with
  | Atom _ | Var _ => 0
  | Relation _ args => S (foldr (λ a d, depth a `max` d) 0 args)
  | Clause h rs => S (depth h `max` foldr (λ r d, depth r `max` d) 0 rs)
  end.

(** * Properties *)

(** ** Structural equality *)

(** Induction over terms that reaches the arguments of a relation and the
    body of a clause. *)
Lemma term_nested_ind (P : term → Prop) :
  (∀ a, P (Atom a)) →
  (∀ v, P (Var v)) →
  (∀ p args, Forall P args → P (Relation p args)) →
  (∀ h rs, P h → Forall P rs → P (Clause h rs)) →
  ∀ t, P t.
Proof.
  intros HA HV HR HC.
  fix IH 1. intros [a | v | p args | h rs].
  - apply HA.
  - apply HV.
  - apply HR. induction args as [| x xs IHxs]; constructor; [apply IH | exact IHxs].
  - apply HC; [apply IH |].
    induction rs as [| x xs IHxs]; constructor; [apply IH | exact IHxs].
Qed.

Lemma list_eqb_refl {A : Type} (eqb : A → A → bool) (xs : list A) :
  Forall (fun x => eqb x x = true) xs → list_eqb eqb xs xs = true.
Proof.
  induction 1 as [| x xs Hx _ IH]; simpl; [done |].
  by rewrite Hx, IH.
Qed.

Lemma list_eqb_eq {A : Type} (eqb : A → A → bool) (xs : list A) :
  Forall (fun x => ∀ y, eqb x y = true → x = y) xs →
  ∀ ys, list_eqb eqb xs ys = true → xs = ys.
Proof.
  induction 1 as [| x xs Hx _ IH]; intros [| y ys]; simpl; try done.
  intros [Hxy Hrest]%andb_prop. f_equal; auto.
Qed.

Lemma term_eqb_refl (t : term) : term_eqb t t = true.
Proof.
  induction t as [a | v | p args IH | h rs IHh IHrs] using term_nested_ind;
    simpl.
  - by apply bool_decide_eq_true.
  - by apply bool_decide_eq_true.
  - rewrite bool_decide_eq_true_2 by done. by apply list_eqb_refl.
  - rewrite IHh. by apply list_eqb_refl.
Qed.

Lemma term_eqb_eq (x y : term) : term_eqb x y = true → x = y.
Proof.
  revert y.
  induction x as [a | v | p args IH | h rs IHh IHrs] using term_nested_ind;
    intros [b | w | q ys | k cs]; simpl; try done.
  - intros ->%bool_decide_eq_true. done.
  - intros ->%bool_decide_eq_true. done.
  - intros [->%bool_decide_eq_true Hargs]%andb_prop.
    f_equal. by apply (list_eqb_eq term_eqb).
  - intros [Hh Hrs]%andb_prop.
    f_equal; [by apply IHh | by apply (list_eqb_eq term_eqb)].
Qed.

Lemma term_eqb_neq (x y : term) : x ≠ y → term_eqb x y = false.
Proof.
  intros Hne. destruct (term_eqb x y) eqn:E; [| done].
  by apply term_eqb_eq in E.
Qed.

Lemma term_eqb_spec (x y : term) : reflect (x = y) (term_eqb x y).
Proof.
  destruct (term_eqb x y) eqn:E; constructor.
  - by apply term_eqb_eq.
  - intros ->. by rewrite term_eqb_refl in E.
Qed.

Lemma term_in_elem_of (t : term) (l : list term) :
  term_in t l = true ↔ t ∈ l.
Proof.
  unfold term_in. rewrite existsb_exists. split.
  - intros (y & Hy & ->%term_eqb_eq). by apply list_elem_of_In.
  - intros Hin. exists t. split; [by apply list_elem_of_In | apply term_eqb_refl].
Qed.

(** ** Unification *)

Lemma unify_each_mono (f g : term → term → result → option result) :
  (∀ x y b r, f x y b = Some r → g x y b = Some r) →
  ∀ xs ys b r, unify_each f xs ys b = Some r → unify_each g xs ys b = Some r.
Proof.
  intros Hfg xs. induction xs as [| x xs IH]; intros [| y ys] b r; simpl;
    try done.
  destruct (f x y b) as [[| e] |] eqn:E; [| | done].
  - intros [= <-]. by rewrite (Hfg _ _ _ _ E).
  - rewrite (Hfg _ _ _ _ E). apply IH.
Qed.

(** A larger budget does not change a result. *)
Lemma unify_mono (fuel : nat) :
  ∀ x y b r, unify fuel x y b = Some r →
  ∀ fuel', fuel ≤ fuel' → unify fuel' x y b = Some r.
Proof.
  induction fuel as [| fuel IH]; intros x y b r; [done |].
  intros H [| fuel'] Hle; [lia |].
  assert (Hrec : ∀ x y b r, unify fuel x y b = Some r →
                            unify fuel' x y b = Some r).
  { intros. eapply IH; [done | lia]. }
  simpl in *. destruct b as [| e]; [done |].
  destruct (term_eqb x y); [done |].
  destruct x as [a | v | p xs | h bs].
  - destruct y; try done. by apply Hrec.
  - destruct (e !! v); [by apply Hrec |].
    destruct (bound y e); [by apply Hrec | done].
  - destruct y as [b | w | q ys | k cs]; try done; [by apply Hrec |].
    destruct (negb (bool_decide (p = q))); [done |].
    destruct (negb (bool_decide (length xs = length ys))); [done |].
    by apply (unify_each_mono (unify fuel)).
  - destruct y as [b | w | q ys | k cs]; try done; [by apply Hrec |].
    destruct (negb (bool_decide (length bs = length cs))); [done |].
    destruct (unify fuel h k (Env e)) as [[| e'] |] eqn:E; [| | done].
    + by rewrite (Hrec _ _ _ _ E).
    + rewrite (Hrec _ _ _ _ E). by apply (unify_each_mono (unify fuel)).
Qed.

(** [unify] has at most one result. *)
Lemma unifies_functional (x y : term) (b r1 r2 : result) :
  unifies x y b r1 → unifies x y b r2 → r1 = r2.
Proof.
  intros [f1 H1] [f2 H2].
  apply (unify_mono _ _ _ _ _) with (fuel' := f1 `max` f2) in H1; [| lia].
  apply (unify_mono _ _ _ _ _) with (fuel' := f1 `max` f2) in H2; [| lia].
  congruence.
Qed.

Lemma unify_same (fuel : nat) (t : term) (e : env) :
  unify (S fuel) t t (Env e) = Some (Env e).
Proof. simpl. by rewrite term_eqb_refl. Qed.

(** C4. Unifying a term with itself gives back the bindings it was called
    with: for every term [t] and dictionary [e], [unify(t, t, e)] is [e] as a
    mapping, and [unify(t, t, False)] is [False]. *)
Theorem unify_same_term (fuel : nat) (t : term) :
  (∀ e : env, unify (S fuel) t t (Env e) = Some (Env e)) ∧
  unify (S fuel) t t Failure = Some Failure.
Proof.
  split; [| done]. intros e. simpl. by rewrite term_eqb_refl.
Qed.

Lemma threaded_unify_each unify_rec xs ys e r :
  threaded unify_rec xs ys e r → unify_each unify_rec xs ys (Env e) = Some r.
Proof.
  induction 1 as [e | x xs y ys e Hxy | x xs y ys e e' r Hxy _ IH]; simpl.
  - done.
  - by rewrite Hxy.
  - by rewrite Hxy.
Qed.

Lemma threaded_same (fuel : nat) (xs : list term) (e : env) (r : result) :
  threaded (unify fuel) xs xs e r → r = Env e.
Proof.
  enough (Hgen : ∀ ys, threaded (unify fuel) xs ys e r → xs = ys → r = Env e)
    by eauto.
  intros ys H.
  induction H as [e | x xs y ys e Hxy | x xs y ys e e' r Hxy _ IH]; [done | |];
    intros [= -> ->]; (destruct fuel as [| fuel]; [done |]);
    rewrite unify_same in Hxy.
  - done.
  - injection Hxy as <-. by apply IH.
Qed.

Lemma unify_Relation_unfold (fuel : nat) (p q : string) (xs ys : list term)
    (e : env) :
  unify (S fuel) (Relation p xs) (Relation q ys) (Env e) =
    if term_eqb (Relation p xs) (Relation q ys) then Some (Env e)
    else if negb (bool_decide (p = q)) then Some Failure
    else if negb (bool_decide (length xs = length ys)) then Some Failure
    else unify_each (unify fuel) xs ys (Env e).
Proof. reflexivity. Qed.

(** C7. Two relations whose predicate names or arities differ do not unify;
    when both agree, the argument pairs are unified from left to right, each
    from the dictionary the pair before it produced, and the first failing
    pair makes the whole unification fail without the later pairs being
    looked at. *)
Theorem unify_relations (fuel : nat) (p q : string) (xs ys : list term)
    (e : env) (r : result) :
  relations_rule (unify fuel) p xs q ys e r →
  unify (S fuel) (Relation p xs) (Relation q ys) (Env e) = Some r.
Proof.
  intros Hrule. rewrite unify_Relation_unfold.
  destruct Hrule as [Hpq | Hlen | r' <- Hlen Hthr].
  - rewrite term_eqb_neq by congruence.
    by rewrite bool_decide_eq_false_2 by done.
  - rewrite term_eqb_neq by congruence.
    destruct (negb (bool_decide (p = q))); [done |].
    by rewrite bool_decide_eq_false_2 by done.
  - destruct (term_eqb_spec (Relation p xs) (Relation p ys)) as [Heq | Hne].
    + injection Heq as <-. by apply threaded_same in Hthr as ->.
    + rewrite !bool_decide_eq_true_2 by done. simpl.
      by apply threaded_unify_each.
Qed.

(** The short circuit at work: [p(a, X)] against [p(b, Y)] fails on the
    first pair, and the pair [X], [Y] is not looked at. *)
Lemma unify_relations_witness :
  unify 2 (Relation "p" [Atom "a"; Var "X"])
          (Relation "p" [Atom "b"; Var "Y"]) (Env ∅) = Some Failure.
Proof.
  apply (unify_relations 1 "p" "p" [Atom "a"; Var "X"] [Atom "b"; Var "Y"]
           ∅ Failure).
  apply rule_args; [reflexivity | reflexivity |].
  apply threaded_fail. reflexivity.
Defined.

(** The branch [if isinstance(y, Var): return unify(y, x, bindings)]. *)
Lemma unify_swap_var (fuel : nat) (x : term) (w : string) (e : env) :
  is_var x = false →
  unify (S fuel) x (Var w) (Env e) = unify fuel (Var w) x (Env e).
Proof. by destruct x. Qed.

Lemma unifies_Failure (x y : term) (r : result) :
  unifies x y Failure r ↔ r = Failure.
Proof.
  split.
  - intros [[| fuel] H]; simpl in H; congruence.
  - intros ->. by exists 1.
Qed.

Lemma unifies_swap_var (x : term) (w : string) (b r : result) :
  is_var x = false →
  unifies x (Var w) b r ↔ unifies (Var w) x b r.
Proof.
  intros Hx. destruct b as [| e]; [by rewrite !unifies_Failure |].
  split.
  - intros [[| fuel] H]; [done |].
    rewrite unify_swap_var in H by done. by exists fuel.
  - intros [fuel H]. exists (S fuel). by rewrite unify_swap_var.
Qed.

(** C2, counterexample.  The two calls on the distinct unbound variables [X]
    and [Y] under the empty dictionary both return, with different
    mappings, so the results of [unify(x, y, env)] and [unify(y, x, env)]
    are not always equal. *)
Lemma unify_symmetry_fails :
  ¬ (∀ (x y : term) (e : env) (r1 r2 : result),
       unifies x y (Env e) r1 → unifies y x (Env e) r2 → r1 = r2).
Proof.
  intros H.
  specialize (H (Var "X") (Var "Y") ∅
                (Env {["X" := Var "Y"]}) (Env {["Y" := Var "X"]})).
  assert (Heq : Env {["X" := Var "Y"]} = Env {["Y" := Var "X"]}).
  { apply H; by exists 1. }
  apply (f_equal (fun r => match r with
                           | Env m => m !! "X"
                           | Failure => None
                           end)) in Heq.
  vm_compute in Heq. discriminate.
Qed.

(** ** Dereferencing *)

Lemma unseen_length (e : env) (enc : list term) :
  length (unseen e enc) ≤ size e.
Proof.
  unfold unseen. etrans; [apply length_filter |].
  by rewrite length_fmap, length_map_to_list.
Qed.

Lemma unseen_elem (e : env) (enc : list term) (w : string) (t : term) :
  e !! w = Some t → t ∉ enc → t ∈ unseen e enc.
Proof.
  intros Hw Ht. apply list_elem_of_filter. split.
  - rewrite Is_true_true, term_in_elem_of. done.
  - apply list_elem_of_fmap. exists (w, t). split; [done |].
    by apply elem_of_map_to_list.
Qed.

Lemma unseen_snoc (e : env) (enc : list term) (t : term) :
  t ∈ unseen e enc →
  length (unseen e (enc ++ [t])) < length (unseen e enc).
Proof.
  intros Ht.
  assert (Heq : unseen e (enc ++ [t])
                = filter (λ x, ¬ term_eqb x t) (unseen e enc)).
  { unfold unseen. rewrite list_filter_filter. apply list_filter_iff.
    intros x. unfold term_in. rewrite existsb_app. simpl.
    rewrite orb_false_r.
    destruct (existsb (term_eqb x) enc), (term_eqb x t); simpl; tauto. }
  rewrite Heq. apply (length_filter_lt _ _ t); [done |].
  rewrite term_eqb_refl. simpl. tauto.
Qed.

Lemma follow_sound (n : nat) (e : env) :
  ∀ binding enc r, follow n e binding enc = Some r → follows e binding enc r.
Proof.
  induction n as [| n IH]; intros binding enc r; simpl;
    (destruct binding as [a | w | p args | h rs];
     try (intros [= <-]; by constructor));
    (destruct (e !! w) as [t |] eqn:Hw;
     [| intros [= <-]; by constructor]);
    (destruct (term_in t enc) eqn:Hin;
     [intros [= <-]; apply follows_visited with t;
        [done | by apply term_in_elem_of] |]).
  - done.
  - intros H. apply follows_next with t; [done | | by apply IH].
    rewrite <- term_in_elem_of. by rewrite Hin.
Qed.

Lemma follow_total (n : nat) (e : env) :
  ∀ binding enc,
    length (unseen e enc) ≤ n → is_Some (follow n e binding enc).
Proof.
  induction n as [| n IH]; intros binding enc Hn; simpl;
    (destruct binding as [a | w | p args | h rs]; try done);
    (destruct (e !! w) as [t |] eqn:Hw; [| done]);
    (destruct (term_in t enc) eqn:Hin; [done |]);
    assert (Ht : t ∈ unseen e enc)
      by (apply unseen_elem with w; [done |];
          rewrite <- term_in_elem_of; by rewrite Hin).
  - apply unseen_snoc in Ht. lia.
  - apply IH. apply unseen_snoc in Ht. lia.
Qed.

Lemma follows_functional (e : env) (binding : term) (enc : list term)
    (r1 r2 : term) :
  follows e binding enc r1 → follows e binding enc r2 → r1 = r2.
Proof.
  intros H1. revert r2.
  induction H1 as [t enc Ht | w enc Hw | w t enc Hw Ht | w t enc r Hw Ht _ IH];
    intros r2 H2; inversion H2; simplify_eq; try done.
  by apply IH.
Qed.

Lemma follow_term (n : nat) (e : env) (t : term) (enc : list term) :
  is_var t = false → follow n e t enc = Some t.
Proof. by destruct n, t. Qed.

Lemma follow_unbound (n : nat) (e : env) (w : string) (enc : list term) :
  e !! w = None → follow n e (Var w) enc = Some (Var w).
Proof. intros Hw. destruct n; simpl; by rewrite Hw. Qed.

Lemma lookup_from_unfold (fuel : nat) (v : string) (t : term) (e : env) :
  lookup_from (S fuel) v t e =
    match follow fuel e t [Var v; t] with
    | None => None
    | Some (Relation p args) =>
        match bind_args (lookup_from fuel) args e with
        | None => None
        | Some bound' => Some (Relation p bound')
        end
    | Some binding => Some binding
    end.
Proof. reflexivity. Qed.

(** Expanding [X] under [X ↦ f(X)] needs the expansion of [X] again. *)
Lemma lookup_from_occurs (fuel : nat) :
  lookup_from fuel "X" (Relation "f" [Var "X"])
              {["X" := Relation "f" [Var "X"]]} = None.
Proof.
  induction fuel as [| fuel IH]; [done |].
  rewrite lookup_from_unfold, follow_term by done.
  simpl bind_args. rewrite lookup_singleton_eq. by rewrite IH.
Qed.

(** C5, counterexample.  Under the finite dictionary [{X: f(X)}] the call
    [X.lookup(bindings)] returns for no recursion budget: the chain stops at
    [f(X)] at once, and expanding that relation looks [X] up again. *)
Lemma lookup_not_total :
  ¬ (∀ (e : env) (v : string), ∃ fuel r, lookup fuel v e = Some r).
Proof.
  intros H.
  destruct (H {["X" := Relation "f" [Var "X"]]} "X") as (fuel & r & Hr).
  unfold lookup in Hr. rewrite lookup_singleton_eq in Hr.
  by rewrite lookup_from_occurs in Hr.
Qed.

Lemma follow_mono (n : nat) (e : env) :
  ∀ m binding enc r,
    n ≤ m → follow n e binding enc = Some r → follow m e binding enc = Some r.
Proof.
  induction n as [| n IH]; intros [| m] binding enc r Hle; try lia; try done;
    simpl; (destruct binding as [a | w | p args | h rs]; try done);
    (destruct (e !! w) as [t |]; [| done]);
    (destruct (term_in t enc); [done |]); [done |].
  apply IH. lia.
Qed.

Lemma bind_args_mono (f g : string → term → env → option term) :
  (∀ w t e r, f w t e = Some r → g w t e = Some r) →
  ∀ args e r, bind_args f args e = Some r → bind_args g args e = Some r.
Proof.
  intros Hfg args e. induction args as [| arg args IH]; intros r; [done |].
  cbn [bind_args].
  match goal with
  | |- match ?m with _ => _ end = _ → match ?m' with _ => _ end = _ =>
      assert (Harg : ∀ a, m = Some a → m' = Some a)
  end.
  { intros a. destruct arg as [| w | |]; try done.
    destruct (e !! w); [apply Hfg | done]. }
  match goal with
  | |- match ?m with _ => _ end = _ → _ => destruct m as [a |]; [| done]
  end.
  rewrite (Harg a eq_refl).
  destruct (bind_args f args e) as [bound' |]; [| done].
  by rewrite (IH bound' eq_refl).
Qed.

Lemma lookup_from_mono (n : nat) :
  ∀ m v t e r,
    n ≤ m → lookup_from n v t e = Some r → lookup_from m v t e = Some r.
Proof.
  induction n as [| n IH]; intros [| m] v t e r Hle; try lia; try done.
  rewrite !lookup_from_unfold.
  destruct (follow n e t [Var v; t]) as [r0 |] eqn:Hf; [| done].
  rewrite (follow_mono n e m _ _ r0) by (done || lia).
  destruct r0 as [a | w | p args | h rs]; try done.
  destruct (bind_args (lookup_from n) args e) as [bound' |] eqn:Hb; [| done].
  rewrite (bind_args_mono (lookup_from n) (lookup_from m)) with (r := bound');
    [done | | done].
  intros w t' e' r'. apply IH. lia.
Qed.

Lemma lookup_mono (n m : nat) (v : string) (e : env) (res : option term) :
  n ≤ m → lookup n v e = Some res → lookup m v e = Some res.
Proof.
  intros Hle. unfold lookup. destruct (e !! v) as [t |]; [| done].
  destruct (lookup_from n v t e) as [r |] eqn:Hr; [| done].
  by rewrite (lookup_from_mono n m v t e r).
Qed.

Lemma lookup_bound (fuel : nat) (v : string) (t : term) (e : env)
    (res : option term) :
  e !! v = Some t →
  lookup fuel v e = Some res ↔ ∃ r, res = Some r ∧ lookup_from fuel v t e = Some r.
Proof.
  intros Hv. unfold lookup. rewrite Hv.
  destruct (lookup_from fuel v t e) as [r |]; split.
  - intros [= <-]. by exists r.
  - by intros (r' & -> & [= ->]).
  - done.
  - by intros (r' & _ & ?).
Qed.

Lemma bind_args_elem (f : string → term → env → option term)
    (args : list term) (e : env) (bound' : list term) (w : string)
    (tw : term) :
  bind_args f args e = Some bound' →
  Var w ∈ args → e !! w = Some tw → is_Some (f w tw e).
Proof.
  revert bound'. induction args as [| arg args IH]; intros bound' Hb Hin Hw.
  - by apply elem_of_nil in Hin.
  - cbn [bind_args] in Hb. apply elem_of_cons in Hin as [<- | Hin].
    + rewrite Hw in Hb. by destruct (f w tw e).
    + match type of Hb with
      | match ?m with _ => _ end = _ => destruct m; [| done]
      end.
      destruct (bind_args f args e) as [rest |]; [| done].
      by apply (IH rest).
Qed.

Lemma bind_args_resolved (fuel : nat) (args : list term) (e : env)
    (bound' : list term) :
  bind_args (lookup_from fuel) args e = Some bound' →
  Forall2 (resolved e) args bound'.
Proof.
  revert bound'. induction args as [| arg args IH]; intros bound'.
  - intros [= <-]. constructor.
  - cbn [bind_args].
    match goal with
    | |- match ?m with _ => _ end = _ → _ =>
        assert (Harg : ∀ a, m = Some a → resolved e arg a)
    end.
    { intros a. destruct arg as [| w | |]; simpl; try by intros [= <-].
      destruct (e !! w) as [tw |] eqn:Hw; [| by intros [= <-]].
      intros Ha. exists fuel. unfold lookup. by rewrite Hw, Ha. }
    match goal with
    | |- match ?m with _ => _ end = _ → _ => destruct m as [a |]; [| done]
    end.
    destruct (bind_args (lookup_from fuel) args e) as [rest |]; [| done].
    intros [= <-]. constructor; [by apply Harg | by apply IH].
Qed.

Lemma bind_args_exists (args : list term) (e : env) :
  (∀ w tw, Var w ∈ args → e !! w = Some tw →
           ∃ fuel a, lookup_from fuel w tw e = Some a) →
  ∃ fuel bound', bind_args (lookup_from fuel) args e = Some bound'.
Proof.
  induction args as [| arg args IH]; intros Hargs; [by exists 0, [] |].
  destruct IH as (fuel1 & rest & Hrest).
  { intros w tw Hin. apply Hargs. by apply list_elem_of_further. }
  assert (Hrest' : ∀ fuel, fuel1 ≤ fuel →
                   bind_args (lookup_from fuel) args e = Some rest).
  { intros fuel Hle.
    apply (bind_args_mono (lookup_from fuel1)); [| done].
    intros w t e' r. by apply lookup_from_mono. }
  destruct arg as [a | w | p xs | h rs].
  - exists fuel1, (Atom a :: rest). cbn [bind_args]. by rewrite Hrest.
  - destruct (e !! w) as [tw |] eqn:Hw.
    + destruct (Hargs w tw (list_elem_of_here _ _) Hw) as (fuel2 & a & Ha).
      exists (fuel1 `max` fuel2), (a :: rest). cbn [bind_args].
      rewrite Hw, (lookup_from_mono fuel2 _ w tw e a) by (done || lia).
      by rewrite Hrest' by lia.
    + exists fuel1, (Var w :: rest). cbn [bind_args]. by rewrite Hw, Hrest.
  - exists fuel1, (Relation p xs :: rest). cbn [bind_args]. by rewrite Hrest.
  - exists fuel1, (Clause h rs :: rest). cbn [bind_args]. by rewrite Hrest.
Qed.

Lemma lookup_from_Acc (e : env) (fuel : nat) :
  ∀ v t r,
    e !! v = Some t → lookup_from fuel v t e = Some r →
    Acc (λ w v, expands e v w) v.
Proof.
  induction fuel as [| fuel IH]; intros v t r Hv; [done |].
  rewrite lookup_from_unfold.
  destruct (follow fuel e t [Var v; t]) as [r0 |] eqn:Hf; [| done].
  apply follow_sound in Hf. intros Hr.
  constructor. intros w (p & args & (t' & Ht' & Hch) & Hin & [tw Hw]).
  assert (t' = t) as -> by congruence.
  assert (r0 = Relation p args) as ->
    by (by apply (follows_functional e t [Var v; t])).
  destruct (bind_args (lookup_from fuel) args e) as [bound' |] eqn:Hb;
    [| done].
  destruct (bind_args_elem _ _ _ _ w tw Hb Hin Hw) as [a Ha].
  by apply (IH w tw a).
Qed.

Lemma Acc_lookup_from (e : env) (v : string) :
  Acc (λ w v, expands e v w) v →
  ∀ t, e !! v = Some t → ∃ fuel r, lookup_from fuel v t e = Some r.
Proof.
  induction 1 as [v _ IH]. intros t Hv.
  destruct (follow_total (size e) e t [Var v; t]) as [r Hr];
    [apply unseen_length |].
  destruct (is_relation r) eqn:Hrel.
  - destruct r as [| | p args |]; try done.
    destruct (bind_args_exists args e) as (fuel & bound' & Hb).
    { intros w tw Hin Hw. apply IH; [| done].
      exists p, args. split; [| by split].
      exists t. split; [done | by apply follow_sound with (size e)]. }
    exists (S (fuel `max` size e)), (Relation p bound').
    rewrite lookup_from_unfold.
    rewrite (follow_mono (size e) e _ _ _ (Relation p args)) by (done || lia).
    rewrite (bind_args_mono (lookup_from fuel) (lookup_from (fuel `max` size e)))
      with (r := bound'); [done | | done].
    intros w t' e' r'. apply lookup_from_mono. lia.
  - exists (S (size e)), r. rewrite lookup_from_unfold, Hr.
    by destruct r.
Qed.

(** C5, amended.  On every finite dictionary, cyclic variable chains
    included, the chain-following loop of [Var.lookup] ends after at most
    [size e] rounds: it stops at a term that is not a variable, at an unbound
    variable, or at a variable whose binding was already encountered, and
    the term it stopped at is its result.  [lookup] returns that term when
    it is not a relation.  When it is a relation [p(args)], what [lookup]
    returns, if it returns, is [p(args')], where each direct argument that
    is a bound variable has been replaced by the result of its own lookup
    and every other argument is kept.  [lookup] of a bound variable returns
    exactly when the relation [expands] is well founded from it, that is,
    when there is no endless sequence of bound variables each of which is a
    direct argument of the relation at which the chain of the one before
    ends; and a result does not depend on the recursion budget. *)
Theorem lookup_chain_terminates (e : env) (v : string) (t : term) :
  e !! v = Some t →
  ∃ r,
    follows e t [Var v; t] r ∧
    (∀ n, size e ≤ n → follow n e t [Var v; t] = Some r) ∧
    (is_relation r = false →
     ∀ fuel, size e < fuel → lookup fuel v e = Some (Some r)) ∧
    (∀ p args fuel res,
       r = Relation p args → lookup fuel v e = Some res →
       ∃ args', res = Some (Relation p args') ∧
                Forall2 (resolved e) args args') ∧
    ((∃ fuel res, lookup fuel v e = Some res) ↔
     Acc (λ w v, expands e v w) v) ∧
    (∀ fuel fuel' res,
       fuel ≤ fuel' → lookup fuel v e = Some res →
       lookup fuel' v e = Some res).
Proof.
  intros Hv.
  destruct (follow_total (size e) e t [Var v; t]) as [r Hr];
    [apply unseen_length |].
  assert (Hall : ∀ n, size e ≤ n → follow n e t [Var v; t] = Some r).
  { intros n Hn.
    destruct (follow_total n e t [Var v; t]) as [r' Hr'].
    - etrans; [apply unseen_length | done].
    - rewrite Hr'. f_equal.
      apply (follows_functional e t [Var v; t]);
        [by apply follow_sound with n | by apply follow_sound with (size e)]. }
  assert (Hfollows : follows e t [Var v; t] r)
    by (by apply follow_sound with (size e)).
  exists r. split; [done |]. split; [done |].
  split; [| split; [| split]].
  - intros Hrel [| fuel] Hfuel; [lia |].
    unfold lookup. rewrite Hv, lookup_from_unfold, Hall by lia.
    by destruct r.
  - intros p args [| fuel] res -> Hres;
      apply (lookup_bound _ v t) in Hres as (r' & -> & Hr'); try done.
    rewrite lookup_from_unfold in Hr'.
    destruct (follow fuel e t [Var v; t]) as [r0 |] eqn:Hf; [| done].
    apply follow_sound in Hf.
    assert (r0 = Relation p args) as ->
      by (by apply (follows_functional e t [Var v; t])).
    destruct (bind_args (lookup_from fuel) args e) as [bound' |] eqn:Hb;
      [| done].
    injection Hr' as <-. exists bound'. split; [done |].
    by apply bind_args_resolved with fuel.
  - split.
    + intros (fuel & res & Hres).
      apply (lookup_bound _ v t) in Hres as (r' & _ & Hr'); [| done].
      by apply (lookup_from_Acc e fuel v t r').
    + intros Hacc.
      destruct (Acc_lookup_from e v Hacc t Hv) as (fuel & r' & Hr').
      exists fuel, (Some r'). apply (lookup_bound _ v t); [done |].
      by exists r'.
  - intros fuel fuel' res Hle. by apply lookup_mono.
Qed.

(** [X ↦ f(Y, Z), Y ↦ a]: the chain of [X] ends at [f(Y, Z)] at once, and
    looking [X] up gives [f(a, Z)]. *)
Lemma lookup_chain_terminates_witness :
  ∃ r,
    follows (<["X" := Relation "f" [Var "Y"; Var "Z"]]>
               (<["Y" := Atom "a"]> ∅))
            (Relation "f" [Var "Y"; Var "Z"])
            [Var "X"; Relation "f" [Var "Y"; Var "Z"]] r ∧
    (∀ n, size (<["X" := Relation "f" [Var "Y"; Var "Z"]]>
                  (<["Y" := Atom "a"]> (∅ : env))) ≤ n →
          follow n (<["X" := Relation "f" [Var "Y"; Var "Z"]]>
                      (<["Y" := Atom "a"]> ∅))
                 (Relation "f" [Var "Y"; Var "Z"])
                 [Var "X"; Relation "f" [Var "Y"; Var "Z"]] = Some r) ∧
    (is_relation r = false →
     ∀ fuel, size (<["X" := Relation "f" [Var "Y"; Var "Z"]]>
                     (<["Y" := Atom "a"]> (∅ : env))) < fuel →
             lookup fuel "X" (<["X" := Relation "f" [Var "Y"; Var "Z"]]>
                                (<["Y" := Atom "a"]> ∅))
             = Some (Some r)) ∧
    (∀ p args fuel res,
       r = Relation p args →
       lookup fuel "X" (<["X" := Relation "f" [Var "Y"; Var "Z"]]>
                          (<["Y" := Atom "a"]> ∅)) = Some res →
       ∃ args', res = Some (Relation p args') ∧
                Forall2 (resolved (<["X" := Relation "f" [Var "Y"; Var "Z"]]>
                                     (<["Y" := Atom "a"]> ∅)))
                        args args') ∧
    ((∃ fuel res,
        lookup fuel "X" (<["X" := Relation "f" [Var "Y"; Var "Z"]]>
                           (<["Y" := Atom "a"]> ∅)) = Some res) ↔
     Acc (λ w v, expands (<["X" := Relation "f" [Var "Y"; Var "Z"]]>
                            (<["Y" := Atom "a"]> ∅)) v w) "X") ∧
    (∀ fuel fuel' res,
       fuel ≤ fuel' →
       lookup fuel "X" (<["X" := Relation "f" [Var "Y"; Var "Z"]]>
                          (<["Y" := Atom "a"]> ∅)) = Some res →
       lookup fuel' "X" (<["X" := Relation "f" [Var "Y"; Var "Z"]]>
                           (<["Y" := Atom "a"]> ∅)) = Some res).
Proof.
  apply (lookup_chain_terminates
           (<["X" := Relation "f" [Var "Y"; Var "Z"]]>
              (<["Y" := Atom "a"]> ∅))
           "X" (Relation "f" [Var "Y"; Var "Z"])).
  reflexivity.
Defined.

Example lookup_relation_expanded :
  lookup 2 "X" (<["X" := Relation "f" [Var "Y"; Var "Z"]]>
                  (<["Y" := Atom "a"]> ∅))
  = Some (Some (Relation "f" [Atom "a"; Var "Z"])).
Proof. reflexivity. Qed.

Example lookup_cycle :
  lookup 3 "X" (<["X" := Var "Y"]> (<["Y" := Var "X"]> ∅))
  = Some (Some (Var "Y")).
Proof. reflexivity. Qed.

(** C3, the behaviour at the failing input.  Under
    [{X: f(g(Y)), Y: a}] the chain of [X] ends at the relation [f(g(Y))],
    and [X.lookup(bindings)] returns it with [Y] still in place although
    [Y] is bound to [a]: [bind_vars] tests [arg in bindings] on the argument
    [g(Y)] itself, which is not a key, and keeps it as it is. *)
Theorem lookup_nested_relation_unresolved (fuel : nat) :
  let e : env :=
    <["X" := Relation "f" [Relation "g" [Var "Y"]]]> (<["Y" := Atom "a"]> ∅) in
  lookup (S fuel) "X" e = Some (Some (Relation "f" [Relation "g" [Var "Y"]]))
  ∧ e !! "Y" = Some (Atom "a").
Proof.
  split; [| reflexivity].
  unfold lookup. rewrite lookup_insert_eq, lookup_from_unfold.
  by rewrite follow_term.
Qed.

(** For comparison, a variable that is itself an argument is resolved. *)
Example lookup_direct_argument_resolved :
  lookup 2 "X" (<["X" := Relation "f" [Var "Y"]]> (<["Y" := Atom "a"]> ∅))
  = Some (Some (Relation "f" [Atom "a"])).
Proof. reflexivity. Qed.

(** ** Unification on the heap *)

Lemma grows_trans (lo lo' : nat) (h h1 : heap) (res : pyval * heap) :
  h `prefix_of` h1 → lo ≤ lo' → grows lo' h1 res → grows lo h res.
Proof.
  intros Hpre Hlo [Hpre' Hfresh]. split; [by etrans |].
  intros a' Ha'. destruct (Hfresh a' Ha'). lia.
Qed.

Lemma unify_each_h_grows
    (f : term → term → pyval → heap → option (pyval * heap)) :
  (∀ x y a h res, f x y (PDict a) h = Some res → grows (length h) h res) →
  ∀ xs ys a h res lo,
    lo ≤ a → a < length h →
    unify_each_h f xs ys (PDict a) h = Some res → grows lo h res.
Proof.
  intros Hf xs. induction xs as [| x xs IH]; intros ys a h res lo Hlo Ha;
    (destruct ys as [| y ys]; simpl;
     [intros [= <-]; split; [done | by intros a' [= <-]] |]);
    [intros [= <-]; split; [done | by intros a' [= <-]] |].
  destruct (f x y (PDict a) h) as [[[| a1] h1] |] eqn:E; [| | done];
    destruct (Hf _ _ _ _ _ E) as [Hpre Hfresh]; simpl in *.
  - intros [= <-]. split; [done | by intros a' [=]].
  - destruct (Hfresh a1 eq_refl) as [H1 H2].
    intros Hrest. apply (grows_trans lo lo h h1); [done | lia |].
    apply (IH ys a1); [| done | done].
    apply prefix_length in Hpre. lia.
Qed.

Lemma unify_h_grows (fuel : nat) :
  ∀ x y a h res,
    unify_h fuel x y (PDict a) h = Some res → grows (length h) h res.
Proof.
  induction fuel as [| fuel IH]; intros x y a h res; [done |].
  simpl. destruct (h !! a) as [e |] eqn:Ha; [| done].
  assert (Hh1 : h `prefix_of` h ++ [e]) by (by exists [e]).
  assert (Hlen : length (h ++ [e]) = S (length h))
    by (rewrite length_app; simpl; lia).
  assert (Hcopy : grows (length h) h (PDict (length h), h ++ [e])).
  { split; [done |]. intros a' [= <-]. simpl. lia. }
  assert (Hfalse : grows (length h) h (PFalse, h ++ [e])).
  { split; [done |]. by intros a' [=]. }
  assert (Hrec : ∀ x y res,
            unify_h fuel x y (PDict (length h)) (h ++ [e]) = Some res →
            grows (length h) h res).
  { intros x' y' res' H. apply (grows_trans _ (length (h ++ [e])) _ (h ++ [e]));
      [done | lia | by apply IH in H]. }
  assert (Heach : ∀ xs ys a1 h1 res,
            h `prefix_of` h1 → length h ≤ a1 → a1 < length h1 →
            unify_each_h (unify_h fuel) xs ys (PDict a1) h1 = Some res →
            grows (length h) h res).
  { intros xs ys a1 h1 res' Hpre H1 H2 H.
    apply (grows_trans _ (length h) _ h1); [done | done |].
    by apply (unify_each_h_grows (unify_h fuel) IH xs ys a1). }
  destruct (term_eqb x y); [by intros [= <-] |].
  destruct x as [c | v | p xs | hd bs].
  - destruct y; try (by intros [= <-]). apply Hrec.
  - destruct (e !! v); [apply Hrec |].
    destruct (bound y e); [apply Hrec |].
    intros [= <-]. split; simpl.
    + rewrite insert_app_r_alt by done. rewrite Nat.sub_diag. simpl.
      by exists [<[v := y]> e].
    + intros a' [= <-]. rewrite length_insert. lia.
  - destruct y as [c | w | q ys | k cs]; try (by intros [= <-]); [apply Hrec |].
    destruct (negb (bool_decide (p = q))); [by intros [= <-] |].
    destruct (negb (bool_decide (length xs = length ys))); [by intros [= <-] |].
    apply Heach; [done | done | lia].
  - destruct y as [c | w | q ys | k cs]; try (by intros [= <-]); [apply Hrec |].
    destruct (negb (bool_decide (length bs = length cs))); [by intros [= <-] |].
    destruct (unify_h fuel hd k (PDict (length h)) (h ++ [e]))
      as [[[| a1] h1] |] eqn:E; [| | done].
    + intros [= <-]. by apply Hrec in E.
    + apply Hrec in E as [Hpre Hfresh]. simpl in *.
      destruct (Hfresh a1 eq_refl). by apply Heach.
Qed.

Lemma unify_each_h_refines
    (f : term → term → result → option result)
    (fh : term → term → pyval → heap → option (pyval * heap)) :
  (∀ x y a (h : heap) e,
     h !! a = Some e → agrees (f x y (Env e)) (fh x y (PDict a) h)) →
  ∀ xs ys a (h : heap) e,
    h !! a = Some e →
    agrees (unify_each f xs ys (Env e)) (unify_each_h fh xs ys (PDict a) h).
Proof.
  intros Hf xs. induction xs as [| x xs IH]; intros [| y ys] a h e Ha; simpl;
    try done.
  specialize (Hf x y a h e Ha).
  destruct (f x y (Env e)) as [[| e1] |], (fh x y (PDict a) h)
    as [[[| a1] h1] |]; simpl in Hf; try done.
  by apply IH.
Qed.

Lemma unify_h_refines (fuel : nat) :
  ∀ x y a (h : heap) e,
    h !! a = Some e →
    agrees (unify fuel x y (Env e)) (unify_h fuel x y (PDict a) h).
Proof.
  induction fuel as [| fuel IH]; intros x y a h e Ha; [done |].
  simpl. rewrite Ha.
  assert (Hcopy : (h ++ [e]) !! length h = Some e)
    by apply list_lookup_middle, eq_refl.
  assert (Hrec : ∀ x y, agrees (unify fuel x y (Env e))
                          (unify_h fuel x y (PDict (length h)) (h ++ [e])))
    by (intros; by apply IH).
  destruct (term_eqb x y); [done |].
  destruct x as [c | v | p xs | hd bs].
  - destruct y; first [done | apply Hrec].
  - destruct (e !! v); [apply Hrec |].
    destruct (bound y e); [apply Hrec |]. simpl.
    apply list_lookup_insert_eq. rewrite length_app. simpl. lia.
  - destruct y as [c | w | q ys | k cs]; try done.
    destruct (negb (bool_decide (p = q))); [done |].
    destruct (negb (bool_decide (length xs = length ys))); [done |].
    by apply unify_each_h_refines.
  - destruct y as [c | w | q ys | k cs]; try done.
    destruct (negb (bool_decide (length bs = length cs))); [done |].
    specialize (Hrec hd k).
    destruct (unify fuel hd k (Env e)) as [[| e1] |],
      (unify_h fuel hd k (PDict (length h)) (h ++ [e]))
      as [[[| a1] h1] |]; simpl in Hrec; try done.
    by apply unify_each_h_refines.
Qed.

(** C8. [unify] does not mutate the dictionary it is given.  When the call
    [unify(x, y, bindings)] returns, every dictionary that existed before
    the call, the caller's [bindings] among them, holds what it held before;
    a dictionary that is returned is an object allocated during the call,
    and it holds the bindings that [unify] computes. *)
Theorem unify_preserves_bindings (fuel : nat) (x y : term) (a : nat)
    (h : heap) (e : env) (res : pyval * heap) :
  h !! a = Some e →
  unify_h fuel x y (PDict a) h = Some res →
  res.2 !! a = Some e ∧
  (∀ a0 e0, h !! a0 = Some e0 → res.2 !! a0 = Some e0) ∧
  (∀ a', res.1 = PDict a' →
         length h ≤ a' ∧
         ∃ e', res.2 !! a' = Some e' ∧
               unify fuel x y (Env e) = Some (Env e')).
Proof.
  intros Ha Hres.
  destruct (unify_h_grows fuel x y a h res Hres) as [Hpre Hfresh].
  assert (Hold : ∀ a0 e0, h !! a0 = Some e0 → res.2 !! a0 = Some e0)
    by (intros a0 e0 H0; by apply (prefix_lookup_Some h)).
  split; [by apply Hold | split; [done |]].
  intros a' Ha'. split; [by apply Hfresh |].
  pose proof (unify_h_refines fuel x y a h e Ha) as Hag.
  rewrite Hres in Hag. destruct res as [r h']. simpl in *. subst r.
  destruct (unify fuel x y (Env e)) as [[| e'] |]; simpl in Hag; try done.
  by exists e'.
Qed.

(** Binding [X] to [a] from a heap whose only object is the caller's empty
    dictionary. *)
Lemma unify_preserves_bindings_witness :
  ([∅; {["X" := Atom "a"]}] : heap) !! 0 = Some ∅ ∧
  (∀ a0 e0, ([∅] : heap) !! a0 = Some e0 →
            ([∅; {["X" := Atom "a"]}] : heap) !! a0 = Some e0) ∧
  (∀ a', PDict 1 = PDict a' →
         length ([∅] : heap) ≤ a' ∧
         ∃ e', ([∅; {["X" := Atom "a"]}] : heap) !! a' = Some e' ∧
               unify 1 (Var "X") (Atom "a") (Env ∅) = Some (Env e')).
Proof.
  apply (unify_preserves_bindings 1 (Var "X") (Atom "a") 0 [∅] ∅
           (PDict 1, [∅; {["X" := Atom "a"]}])).
  - reflexivity.
  - reflexivity.
Defined.

(** ** The database *)

Section DatabaseFacts.

Context {prim : Type}.
Implicit Types (st : @state prim) (name p : string).

Lemma query_fst st name :
  (∀ fn, clauses st !! name ≠ Some (Primitive fn)) →
  (query name st).1 = Clauses (sequence st name).
Proof.
  intros Hnp. unfold query, sequence.
  destruct (clauses st !! name) as [[l | fn] |] eqn:E; try done.
  by destruct (Hnp fn).
Qed.

Lemma store_lookup (c : term) st st' name :
  store c st = Ret st' →
  ∃ p, clause_pred c = Some p ∧
       clauses st' !! p = Some (Clauses (sequence st p ++ [c])) ∧
       (name ≠ p → clauses st' !! name = clauses st !! name).
Proof.
  unfold store, sequence.
  destruct c as [| | | [| | p args |] body]; try done.
  intros Hst. exists p. split; [done |].
  destruct (clauses st !! p) as [[l | fn] |] eqn:E; try done;
    injection Hst as <-; simpl;
    (split; [by rewrite lookup_insert_eq
            | intros Hne; by rewrite lookup_insert_ne]).
Qed.

Lemma store_all_sequence (cs : list term) :
  ∀ st st' name,
    store_all cs st = Ret st' →
    (∀ fn, clauses st !! name ≠ Some (Primitive fn)) →
    clauses st' !! name = clauses st !! name ∧ stored_under name cs = [] ∨
    clauses st' !! name
      = Some (Clauses (sequence st name ++ stored_under name cs)).
Proof.
  induction cs as [| c cs IH]; intros st st' name; simpl.
  - intros [= <-] _. by left.
  - destruct (store c st) as [st1 | |] eqn:Hst; simpl; try done.
    intros Hall Hnp.
    destruct (store_lookup c st st1 name Hst) as (p & Hp & Hin & Hout).
    unfold stored_under. rewrite filter_cons.
    destruct (decide (clause_pred c = Some name)) as [Hc | Hc].
    + assert (p = name) as -> by congruence.
      destruct (IH st1 st' name Hall) as [[Heq Hnil] | Heq].
      * intros fn. by rewrite Hin.
      * right. rewrite Heq, Hin. unfold stored_under in Hnil.
        by rewrite Hnil.
      * right. rewrite Heq. unfold sequence at 1. rewrite Hin.
        by rewrite <- app_assoc.
    + assert (p ≠ name) by congruence.
      specialize (Hout ltac:(done)).
      destruct (IH st1 st' name Hall) as [[Heq Hnil] | Heq].
      * intros fn. by rewrite Hout.
      * left. split; [by rewrite Heq | done].
      * right. rewrite Heq. unfold sequence. by rewrite Hout.
Qed.

Lemma Database_query (facts rules : list term) (n : nat) st name :
  Database facts rules n = Ret st →
  (query name st).1 = Clauses (stored_under name (facts ++ rules)).
Proof.
  unfold Database. intros Hdb.
  destruct (store_all_sequence _ _ _ name Hdb) as [[Heq Hnil] | Heq].
  - intros fn. simpl. by rewrite lookup_empty.
  - unfold query. rewrite Heq. simpl. rewrite lookup_empty. by rewrite Hnil.
  - unfold query. rewrite Heq. unfold sequence. simpl.
    by rewrite lookup_empty.
Qed.

End DatabaseFacts.

(** ** Resolution *)

Section ResolutionFacts.

Context {prim : Type}.
Variable call_prim :
  prim →
  (list term → result → @state prim → outcome (result * @state prim)) →
  list term → env → list term → @state prim →
  outcome (result * @state prim).
Implicit Types (st : @state prim) (name p : string).

Lemma prove_unfold (fuel : nat) p (args : list term) (e : env)
    (remaining : list term) st :
  prove call_prim (S fuel) (Relation p args) (Env e) remaining st =
    match (query p st).1 with
    | Clauses [] => Ret (Failure, (query p st).2)
    | Primitive fn =>
        call_prim fn (prove_all call_prim fuel) args e remaining
                  (query p st).2
    | Clauses cs =>
        try_clauses (prove_all call_prim fuel) fuel (Relation p args) e
                    remaining cs (query p st).2
    end.
Proof. simpl. by destruct (query p st). Qed.

(** C9. [Database.query(name)] returns the clauses stored under [name] in
    the order in which they were stored, the primitive when one was defined
    under [name], and an empty sequence when [name] is unknown; and [prove]
    fails when the lookup for the goal's predicate gives an empty
    sequence. *)
Theorem query_returns st name :
  (∀ facts rules n,
     Database facts rules n = Ret st →
     (query name st).1 = Clauses (stored_under name (facts ++ rules))) ∧
  (∀ c st',
     clause_pred c = Some name → store c st = Ret st' →
     (query name st').1 = Clauses (sequence st name ++ [c])) ∧
  (∀ fn, (query name (define_primitive name fn st)).1 = Primitive fn) ∧
  (clauses st !! name = None → (query name st).1 = Clauses []) ∧
  (∀ fuel args b remaining,
     (query name st).1 = Clauses [] →
     ∃ st', prove call_prim (S fuel) (Relation name args) b remaining st
            = Ret (Failure, st')).
Proof.
  repeat split.
  - intros facts rules n. apply Database_query.
  - intros c st' Hc Hst.
    destruct (store_lookup c st st' name Hst) as (p & Hp & Hin & _).
    assert (p = name) as -> by congruence.
    unfold query. by rewrite Hin.
  - intros fn. unfold query, define_primitive. simpl.
    by rewrite lookup_insert_eq.
  - intros Hnone. unfold query. by rewrite Hnone.
  - intros fuel args [| e] remaining Hq; [by eexists |].
    rewrite prove_unfold, Hq. by eexists.
Qed.

(** C10, amended.  [Database.query] on a name that the database does not
    know stores an empty sequence under that name, so the set of known names
    grows by it; and every [prove] call whose bindings are not [False] does
    the same for a goal with an unknown predicate, before it fails.  A
    [prove] call whose bindings are [False] returns [False] before it
    queries the database, whatever the goal, and leaves the database as it
    was. *)
Theorem query_inserts_unknown st name :
  clauses st !! name = None →
  (query name st).2 = State (<[name := Clauses []]> (clauses st)) (counter st)
  ∧ (name ∉ dom (clauses st))
  ∧ (dom (clauses (query name st).2) = {[name]} ∪ dom (clauses st))
  ∧ (∀ fuel args e remaining,
       prove call_prim (S fuel) (Relation name args) (Env e) remaining st
       = Ret (Failure,
              State (<[name := Clauses []]> (clauses st)) (counter st)))
  ∧ (∀ fuel goal remaining,
       prove call_prim (S fuel) goal Failure remaining st
       = Ret (Failure, st)).
Proof.
  intros Hnone.
  assert (Hq : query name st
               = (Clauses [], State (<[name := Clauses []]> (clauses st))
                                    (counter st)))
    by (unfold query; by rewrite Hnone).
  split; [by rewrite Hq |].
  split; [by apply not_elem_of_dom |].
  split; [rewrite Hq; simpl; by rewrite dom_insert_L |].
  split; [| done].
  intros fuel args e remaining. by rewrite prove_unfold, Hq.
Qed.

(** The test of line 331 as the code makes it.  Whenever the candidate loop
    of [prove] reaches a clause whose head, renamed, unifies with the goal,
    and what [Clause.bind_vars] returns for the renamed clause has its head
    among its body relations, the candidate is rejected: the loop goes on
    with the clauses stored after it, and what [prove] returns is what those
    give. *)
Lemma prove_loop_guard (fuel : nat) (goal : term) (e : env)
    (remaining : list term) (clause : term) (cs : list term) st st1
    (rhead : term) (rbody : list term) (u : env)
    (h' : term) (rs' : list term) :
  recursive_rename clause st = Ret (Clause rhead rbody, st1) →
  unify fuel goal rhead (Env e) = Some (Env u) →
  bind_vars fuel (Clause rhead rbody) u = Ret (Clause h' rs') →
  h' ∈ rs' →
  try_clauses (prove_all call_prim fuel) fuel goal e remaining
              (clause :: cs) st
  = try_clauses (prove_all call_prim fuel) fuel goal e remaining cs st1
  ∧ (∀ p args,
       goal = Relation p args →
       clauses st !! p = Some (Clauses (clause :: cs)) →
       prove call_prim (S fuel) goal (Env e) remaining st
       = try_clauses (prove_all call_prim fuel) fuel goal e remaining cs st1).
Proof.
  intros Hren Huni Hbind Hin.
  assert (Hstep :
    try_clauses (prove_all call_prim fuel) fuel goal e remaining
                (clause :: cs) st
    = try_clauses (prove_all call_prim fuel) fuel goal e remaining cs st1).
  { cbn [try_clauses]. rewrite Hren. cbn [bind]. rewrite Huni.
    cbn [budgeted bind].
    destruct (falsy (Env u)); [done |].
    rewrite Hbind. cbn [bind].
    by rewrite (proj2 (term_in_elem_of h' rs') Hin). }
  split; [done |].
  intros p args -> Hq.
  assert (Hquery : query p st = (Clauses (clause :: cs), st))
    by (unfold query; by rewrite Hq).
  by rewrite prove_unfold, Hquery.
Qed.

End ResolutionFacts.

(** ** Concrete runs *)

Example Database_fact_pa : Database [fact_pa] [] 0 = Ret db_pa.
Proof. reflexivity. Qed.

(** C1, the behaviour at the failing input.  The database holds the ground
    fact [p(a)], the goal is [p(a)] and the bindings are empty.  Unifying
    the goal with the head of the (renamed) fact succeeds with the empty
    dictionary, and [prove] takes that dictionary for a failure ([not
    unified]), skips the only candidate and returns [False]. *)
Theorem prove_ground_fact_empty_bindings (fuel : nat) :
  recursive_rename fact_pa db_pa = Ret (fact_pa, db_pa) ∧
  unify (S fuel) (Relation "p" [Atom "a"]) (Relation "p" [Atom "a"]) (Env ∅)
  = Some (Env ∅) ∧
  prove no_primitives (S (S fuel)) (Relation "p" [Atom "a"]) (Env ∅) [] db_pa
  = Ret (Failure, db_pa).
Proof.
  split; [reflexivity |]. split; [reflexivity |].
  rewrite prove_unfold. reflexivity.
Qed.

(** The same goal against the same database succeeds as soon as the
    bindings hold an unrelated entry. *)
Example prove_ground_fact_other_bindings :
  prove no_primitives 2 (Relation "p" [Atom "a"])
        (Env {["Z" := Atom "b"]}) [] db_pa
  = Ret (Env {["Z" := Atom "b"]}, db_pa).
Proof. reflexivity. Qed.

(** C10, counterexample.  With [False] for bindings, [prove] returns before
    it queries the database: a goal with an unknown predicate leaves the
    database as it was. *)
Lemma prove_unknown_predicate_may_not_insert :
  ¬ (∀ (fuel : nat) (p : string) (args : list term) (b : result)
       (remaining : list term) (st : @state Empty_set),
       clauses st !! p = None →
       ∃ r st',
         prove no_primitives (S fuel) (Relation p args) b remaining st
         = Ret (r, st') ∧
         clauses st' !! p = Some (Clauses [])).
Proof.
  intros H.
  destruct (H 0 "p" [] Failure [] (State ∅ 0) (lookup_empty "p"))
    as (r & st' & Hp & Hc).
  simpl in Hp. injection Hp as <- <-. simpl in Hc.
  rewrite lookup_empty in Hc. discriminate.
Qed.

Lemma query_inserts_unknown_witness :
  (query "p" (State (∅ : gmap string (@entry Empty_set)) 0)).2
  = State (<["p" := Clauses []]> ∅) 0
  ∧ ("p" ∉ dom (∅ : gmap string (@entry Empty_set)))
  ∧ (dom (clauses (query "p" (State (∅ : gmap string (@entry Empty_set)) 0)).2)
     = {["p"]} ∪ dom (∅ : gmap string (@entry Empty_set)))
  ∧ (∀ fuel args e remaining,
       prove no_primitives (S fuel) (Relation "p" args) (Env e) remaining
             (State ∅ 0)
       = Ret (Failure, State (<["p" := Clauses []]> ∅) 0))
  ∧ (∀ fuel goal remaining,
       prove no_primitives (S fuel) goal Failure remaining (State ∅ 0)
       = Ret (Failure, State ∅ 0)).
Proof.
  apply (query_inserts_unknown no_primitives (State ∅ 0) "p").
  reflexivity.
Defined.

(** [p(a)] against [p(X) :- p(X)]: the renamed head [p(var0)] unifies with
    the goal, the bound clause is [p(a) :- p(a)], and the candidate is
    dropped. *)
Lemma prove_loop_guard_witness :
  try_clauses (prove_all no_primitives 3) 3 (Relation "p" [Atom "a"]) ∅ []
              [rule_loop] db_loop
  = try_clauses (prove_all no_primitives 3) 3 (Relation "p" [Atom "a"]) ∅ []
                [] (State (clauses db_loop) 1)
  ∧ (∀ p args,
       Relation "p" [Atom "a"] = Relation p args →
       clauses db_loop !! p = Some (Clauses [rule_loop]) →
       prove no_primitives 4 (Relation "p" [Atom "a"]) (Env ∅) [] db_loop
       = try_clauses (prove_all no_primitives 3) 3 (Relation "p" [Atom "a"])
                     ∅ [] [] (State (clauses db_loop) 1)).
Proof.
  apply (prove_loop_guard no_primitives 3 (Relation "p" [Atom "a"]) ∅ []
           rule_loop [] db_loop (State (clauses db_loop) 1)
           (Relation "p" [Var "var0"]) [Relation "p" [Var "var0"]]
           {["var0" := Atom "a"]}
           (Relation "p" [Atom "a"]) [Relation "p" [Atom "a"]]).
  - reflexivity.
  - reflexivity.
  - reflexivity.
  - apply list_elem_of_here.
Defined.

Example prove_loop_rule_fails :
  prove no_primitives 4 (Relation "p" [Atom "a"]) (Env ∅) [] db_loop
  = Ret (Failure, State (clauses db_loop) 1).
Proof. reflexivity. Qed.

(** Three facts stored in the order [p(a)], [q(b)], [p(c)]: the query for
    [p] gives [p(a)], [p(c)], and a goal [r(...)] fails. *)
Lemma query_returns_witness :
  (query "p" (State (<["q" := Clauses [Clause (Relation "q" [Atom "b"]) []]]>
                     {["p" := Clauses [Clause (Relation "p" [Atom "a"]) [];
                                       Clause (Relation "p" [Atom "c"]) []]]})
                    0 : @state Empty_set)).1
  = Clauses [Clause (Relation "p" [Atom "a"]) [];
             Clause (Relation "p" [Atom "c"]) []]
  ∧ ∃ st', prove no_primitives 1 (Relation "r" [Atom "a"]) (Env ∅) []
                 (State ∅ 0) = Ret (Failure, st').
Proof.
  split.
  - apply (proj1 (query_returns no_primitives _ "p")
             [Clause (Relation "p" [Atom "a"]) [];
              Clause (Relation "q" [Atom "b"]) [];
              Clause (Relation "p" [Atom "c"]) []] [] 0).
    reflexivity.
  - apply (proj2 (proj2 (proj2 (proj2
             (query_returns no_primitives (State ∅ 0) "r")))) 0).
    reflexivity.
Defined.

(** * Further properties of the engine *)

(** ** Equality of terms *)

(** X1. [==] on terms is structural equality: [Atom.__eq__], [Var.__eq__],
    [Relation.__eq__] and [Clause.__eq__] together answer [True] exactly
    when the two terms are of the same class with equal fields, all the way
    down; in particular [==] is reflexive and symmetric, and membership in a
    Python list of terms is membership up to that equality. *)
Theorem term_eq_structural (x y : term) (l : list term) :
  (term_eqb x y = true ↔ x = y) ∧
  term_eqb x y = term_eqb y x ∧
  (term_in x l = true ↔ x ∈ l).
Proof.
  split; [| split].
  - split; [apply term_eqb_eq | intros ->; apply term_eqb_refl].
  - destruct (term_eqb_spec x y) as [-> | Hne];
      [by rewrite term_eqb_refl | by rewrite term_eqb_neq].
  - apply term_in_elem_of.
Qed.

(** ** Variables of a term: [get_vars] *)

Lemma extend_new_elem (new : list string) :
  ∀ vars v, v ∈ extend_new vars new ↔ v ∈ vars ∨ v ∈ new.
Proof.
  unfold extend_new.
  induction new as [| w new IH]; intros vars v; simpl.
  - rewrite elem_of_nil. tauto.
  - rewrite IH, elem_of_cons. case_bool_decide as Hw.
    + split; [tauto |]. intros [? | [-> | ?]]; tauto.
    + rewrite elem_of_app, list_elem_of_singleton. tauto.
Qed.

Lemma extend_new_NoDup (new : list string) :
  ∀ vars, NoDup vars → NoDup (extend_new vars new).
Proof.
  unfold extend_new.
  induction new as [| w new IH]; intros vars Hnd; simpl; [done |].
  apply IH. case_bool_decide as Hw; [done |].
  apply NoDup_app. split; [done |]. split; [| apply NoDup_singleton].
  intros x Hx ->%list_elem_of_singleton. done.
Qed.

(** The accumulating loops of [Relation.get_vars] and [Clause.get_vars]. *)
Lemma get_vars_loop_elem (ts : list term) :
  ∀ acc v,
    v ∈ fold_left (λ vars t, extend_new vars (get_vars t)) ts acc
    ↔ v ∈ acc ∨ ∃ t, t ∈ ts ∧ v ∈ get_vars t.
Proof.
  induction ts as [| t ts IH]; intros acc v; simpl.
  - split; [tauto |]. intros [? | (t & Ht & _)]; [done |].
    by apply elem_of_nil in Ht.
  - rewrite IH, extend_new_elem. split.
    + intros [[? | ?] | (t' & Ht' & Hv)]; [tauto | |].
      * right. exists t. split; [apply list_elem_of_here | done].
      * right. exists t'. split; [by apply list_elem_of_further | done].
    + intros [? | (t' & Ht' & Hv)]; [tauto |].
      apply elem_of_cons in Ht' as [-> | Ht']; [tauto |].
      right. by exists t'.
Qed.

Lemma get_vars_loop_NoDup (ts : list term) :
  ∀ acc,
    NoDup acc →
    NoDup (fold_left (λ vars t, extend_new vars (get_vars t)) ts acc).
Proof.
  induction ts as [| t ts IH]; intros acc Hnd; simpl; [done |].
  by apply IH, extend_new_NoDup.
Qed.

Lemma get_vars_no_dup (t : term) : NoDup (get_vars t).
Proof.
  induction t as [a | v | p args _ | h rs IHh _] using term_nested_ind;
    simpl.
  - apply NoDup_nil_2.
  - apply NoDup_singleton.
  - apply get_vars_loop_NoDup, NoDup_nil_2.
  - by apply get_vars_loop_NoDup.
Qed.

Lemma get_vars_occurs_iff (v : string) (t : term) :
  v ∈ get_vars t ↔ occurs v t.
Proof.
  induction t as [a | w | p args IH | h rs IHh IHrs] using term_nested_ind;
    simpl.
  - split; [by intros ?%elem_of_nil | inversion 1].
  - rewrite list_elem_of_singleton. split; [intros ->; constructor |].
    by inversion 1.
  - rewrite get_vars_loop_elem, elem_of_nil. split.
    + intros [[] | (a & Ha & Hv)].
      apply (occurs_arg v p args a); [done |].
      rewrite Forall_forall in IH. by apply IH.
    + inversion 1 as [| p' args' a Ha Hocc | |]; subst. right.
      exists a. split; [done |].
      rewrite Forall_forall in IH. by apply IH.
  - rewrite get_vars_loop_elem, IHh. split.
    + intros [Hh | (r & Hr & Hv)]; [by apply occurs_head |].
      apply (occurs_body v h rs r); [done |].
      rewrite Forall_forall in IHrs. by apply IHrs.
    + inversion 1 as [| | h' rs' Hocc | h' rs' r Hr Hocc]; subst; [by left |].
      right. exists r. split; [done |].
      rewrite Forall_forall in IHrs. by apply IHrs.
Qed.

(** X2. [get_vars] lists every variable once: the list that
    [Relation.get_vars] and [Clause.get_vars] return has no duplicates. *)
Theorem get_vars_NoDup (t : term) : NoDup (get_vars t).
Proof. apply get_vars_no_dup. Qed.

(** X3. [get_vars] returns exactly the variables that occur in the term, at
    any depth of nesting. *)
Theorem get_vars_occurs (v : string) (t : term) :
  v ∈ get_vars t ↔ occurs v t.
Proof. apply get_vars_occurs_iff. Qed.

(** ** Renaming: [rename_vars], [Var.get_unused_var], [recursive_rename] *)

(** X4. Renaming leaves a term as it is when no variable of the term is a
    key of the replacements; in particular with the empty dictionary. *)
Theorem rename_vars_untouched (t : term) (replacements : env) :
  (∀ v, occurs v t → replacements !! v = None) →
  rename_vars t replacements = t.
Proof.
  induction t as [a | v | p args IH | h rs IHh IHrs] using term_nested_ind;
    intros Hnone; simpl.
  - done.
  - by rewrite (Hnone v (occurs_var v)).
  - f_equal. rewrite <- (map_id args) at 2. apply map_ext_in.
    intros a Ha%list_elem_of_In. rewrite Forall_forall in IH.
    apply IH; [done |]. intros v Hv. apply Hnone.
    by apply (occurs_arg v p args a).
  - f_equal.
    + apply IHh. intros v Hv. apply Hnone. by apply occurs_head.
    + rewrite <- (map_id rs) at 2. apply map_ext_in.
      intros r Hr%list_elem_of_In. rewrite Forall_forall in IHrs.
      apply IHrs; [done |]. intros v Hv. apply Hnone.
      by apply (occurs_body v h rs r).
Qed.

Lemma rename_vars_untouched_witness :
  rename_vars (Relation "p" [Var "X"; Atom "a"]) {["Y" := Var "Z"]}
  = Relation "p" [Var "X"; Atom "a"].
Proof.
  apply (rename_vars_untouched (Relation "p" [Var "X"; Atom "a"])
           {["Y" := Var "Z"]}).
  intros v Hv. apply get_vars_occurs_iff in Hv. vm_compute in Hv.
  apply list_elem_of_singleton in Hv as ->. reflexivity.
Defined.

Lemma var_name_injective (n m : nat) : var_name n = var_name m → n = m.
Proof.
  unfold var_name. intros H.
  assert (Hs : NilEmpty.string_of_uint (Nat.to_uint n)
               = NilEmpty.string_of_uint (Nat.to_uint m))
    by (simpl in H; by injection H).
  apply (f_equal NilEmpty.uint_of_string) in Hs.
  rewrite !NilEmpty.usu in Hs. injection Hs as Hu.
  apply (f_equal Nat.of_uint) in Hu.
  by rewrite !DecimalNat.Unsigned.of_to in Hu.
Qed.

(** X6. [Var.get_unused_var] never gives the same name for two values of
    the counter. *)
Theorem var_name_inj (n m : nat) : var_name n = var_name m → n = m.
Proof. apply var_name_injective. Qed.

Lemma var_name_inj_witness : 3 = 3.
Proof. apply (var_name_inj 3 3). reflexivity. Defined.

Section RenameVars.

(** [g] is what the replacements do to the names in [S], and it is
    one-to-one there. *)
Variables (S : string → Prop) (g : string → string).
Hypothesis g_inj : ∀ v w, S v → S w → g v = g w → v = w.

Lemma extend_new_map (new : list string) :
  ∀ vars,
    (∀ v, v ∈ vars → S v) → (∀ v, v ∈ new → S v) →
    extend_new (map g vars) (map g new) = map g (extend_new vars new).
Proof.
  unfold extend_new.
  induction new as [| w new IH]; intros vars Hvars Hnew; simpl; [done |].
  assert (Hw : S w) by apply Hnew, list_elem_of_here.
  assert (Hdec : bool_decide (g w ∈ map g vars) = bool_decide (w ∈ vars)).
  { apply bool_decide_ext. rewrite list_elem_of_In, in_map_iff. split.
    - intros (v & Hgv & Hv%list_elem_of_In).
      by rewrite <- (g_inj v w (Hvars v Hv) Hw Hgv).
    - intros Hin. exists w. by rewrite <- list_elem_of_In. }
  rewrite Hdec. destruct (bool_decide (w ∈ vars)).
  - apply IH; [done |]. intros v Hv. by apply Hnew, list_elem_of_further.
  - rewrite <- IH.
    + by rewrite map_app.
    + intros v [Hv | ->%list_elem_of_singleton]%elem_of_app; auto.
    + intros v Hv. by apply Hnew, list_elem_of_further.
Qed.

Lemma get_vars_loop_map (rename : term → term) (ts : list term) :
  (∀ t, t ∈ ts → get_vars (rename t) = map g (get_vars t)) →
  (∀ t v, t ∈ ts → v ∈ get_vars t → S v) →
  ∀ acc,
    (∀ v, v ∈ acc → S v) →
    fold_left (λ vars t, extend_new vars (get_vars t)) (map rename ts)
              (map g acc)
    = map g (fold_left (λ vars t, extend_new vars (get_vars t)) ts acc).
Proof.
  induction ts as [| t ts IH]; intros Hren HS acc Hacc; simpl; [done |].
  rewrite (Hren t) by apply list_elem_of_here.
  rewrite extend_new_map.
  - apply IH.
    + intros t' Ht'. by apply Hren, list_elem_of_further.
    + intros t' v Ht'. by apply HS, list_elem_of_further.
    + intros v [Hv | Hv]%extend_new_elem; [by apply Hacc |].
      apply (HS t v); [apply list_elem_of_here | done].
  - done.
  - intros v Hv. apply (HS t v); [apply list_elem_of_here | done].
Qed.

Lemma get_vars_rename (replacements : env) (t : term) :
  (∀ v, occurs v t → S v ∧ replacements !! v = Some (Var (g v))) →
  get_vars (rename_vars t replacements) = map g (get_vars t).
Proof.
  induction t as [a | v | p args IH | h rs IHh IHrs] using term_nested_ind;
    intros Hocc; simpl.
  - done.
  - destruct (Hocc v (occurs_var v)) as [_ ->]. done.
  - rewrite Forall_forall in IH.
    apply (get_vars_loop_map (λ a, rename_vars a replacements) args)
      with (acc := []).
    + intros a Ha. apply IH; [done |]. intros v Hv. apply Hocc.
      by apply (occurs_arg v p args a).
    + intros a v Ha Hv%get_vars_occurs_iff. apply Hocc.
      by apply (occurs_arg v p args a).
    + by intros v ?%elem_of_nil.
  - rewrite Forall_forall in IHrs.
    rewrite IHh by (intros v Hv; apply Hocc; by apply occurs_head).
    apply (get_vars_loop_map (λ r, rename_vars r replacements) rs).
    + intros r Hr. apply IHrs; [done |]. intros v Hv. apply Hocc.
      by apply (occurs_body v h rs r).
    + intros r v Hr Hv%get_vars_occurs_iff. apply Hocc.
      by apply (occurs_body v h rs r).
    + intros v Hv%get_vars_occurs_iff. apply Hocc. by apply occurs_head.
Qed.

End RenameVars.

Lemma renames_from_other (vars : list string) :
  ∀ n acc v, v ∉ vars → renames_from n vars acc !! v = acc !! v.
Proof.
  induction vars as [| w vars IH]; intros n acc v Hv; simpl; [done |].
  apply not_elem_of_cons in Hv as [Hne Hv].
  rewrite IH by done. by rewrite lookup_insert_ne.
Qed.

Lemma renames_from_var (vars : list string) :
  ∀ n acc v,
    v ∈ vars → ∃ w, renames_from n vars acc !! v = Some (Var w).
Proof.
  induction vars as [| w vars IH]; intros n acc v Hv; simpl;
    [by apply elem_of_nil in Hv |].
  destruct (decide (v ∈ vars)) as [Hin | Hnin]; [by apply IH |].
  apply elem_of_cons in Hv as [-> | Hv]; [| done].
  rewrite renames_from_other by done.
  rewrite lookup_insert_eq. by eexists.
Qed.

Lemma renames_from_names (vars : list string) :
  ∀ n acc,
    NoDup vars →
    map (renamed_to (renames_from n vars acc)) vars
    = map var_name (seq n (length vars)).
Proof.
  induction vars as [| w vars IH]; intros n acc Hnd; simpl; [done |].
  apply NoDup_cons in Hnd as [Hw Hnd]. f_equal.
  - unfold renamed_to. rewrite renames_from_other by done.
    by rewrite lookup_insert_eq.
  - by apply IH.
Qed.

Lemma NoDup_map_inj {A B : Type} (f : A → B) (l : list A) :
  NoDup (map f l) → ∀ x y, x ∈ l → y ∈ l → f x = f y → x = y.
Proof.
  induction l as [| a l IH]; simpl; intros Hnd x y Hx Hy Hxy;
    [by apply elem_of_nil in Hx |].
  apply NoDup_cons in Hnd as [Ha Hnd].
  assert (Hmem : ∀ z, z ∈ l → f z ∈ map f l).
  { intros z Hz. apply list_elem_of_In, in_map. by apply list_elem_of_In. }
  apply elem_of_cons in Hx as [-> | Hx], Hy as [-> | Hy].
  - done.
  - destruct Ha. rewrite Hxy. by apply Hmem.
  - destruct Ha. rewrite <- Hxy. by apply Hmem.
  - by apply IH.
Qed.

Lemma var_names_NoDup (n k : nat) : NoDup (map var_name (seq n k)).
Proof.
  revert n. induction k as [| k IH]; intros n; simpl; [apply NoDup_nil_2 |].
  apply NoDup_cons. split; [| apply IH].
  intros Hin%list_elem_of_In. apply in_map_iff in Hin as (m & Hm & Hin).
  apply var_name_injective in Hm as ->. apply in_seq in Hin. lia.
Qed.

Lemma recursive_rename_names {prim : Type} (clause clause' : term)
    (st st' : @state prim) :
  recursive_rename clause st = Ret (clause', st') →
  get_vars clause'
  = map var_name (seq (counter st) (length (get_vars clause)))
  ∧ counter st' = counter st + length (get_vars clause)
  ∧ clauses st' = clauses st.
Proof.
  unfold recursive_rename. destruct clause as [| | | h rs]; try done.
  set (c := Clause h rs). set (vars := get_vars c).
  set (r := renames_from (counter st) vars ∅).
  intros Heq.
  assert (Hc : clause' = rename_vars c r) by congruence.
  assert (Hst : st' = State (clauses st) (counter st + length vars))
    by congruence.
  subst clause' st'. split; [| done].
  assert (Hnames : map (renamed_to r) vars
                   = map var_name (seq (counter st) (length vars)))
    by apply renames_from_names, get_vars_no_dup.
  rewrite <- Hnames.
  apply (get_vars_rename (λ v, v ∈ vars) (renamed_to r)).
  - apply NoDup_map_inj. rewrite Hnames. apply var_names_NoDup.
  - intros v Hv%get_vars_occurs_iff. split; [done |].
    destruct (renames_from_var vars (counter st) ∅ v Hv) as [w Hw].
    unfold renamed_to. fold r in Hw. by rewrite Hw.
Qed.

(** X5. [recursive_rename] gives every variable of the clause a fresh name:
    listed in order of first occurrence, the variables of the renamed
    clause are [var<c>], [var<c+1>], ... from the value [c] of [Var.counter]
    at the call.  The counter advances by the number of distinct variables
    of the clause, and the database is not touched. *)
Theorem recursive_rename_fresh {prim : Type} (clause clause' : term)
    (st st' : @state prim) :
  recursive_rename clause st = Ret (clause', st') →
  get_vars clause'
  = map var_name (seq (counter st) (length (get_vars clause)))
  ∧ counter st' = counter st + length (get_vars clause)
  ∧ clauses st' = clauses st.
Proof. apply recursive_rename_names. Qed.

(** [likes(x, y) :- likes(x, z), likes(z, y)] renamed at counter 7. *)
Lemma recursive_rename_fresh_witness :
  get_vars (Clause (Relation "likes" [Var "var7"; Var "var8"])
                   [Relation "likes" [Var "var7"; Var "var9"];
                    Relation "likes" [Var "var9"; Var "var8"]])
  = map var_name
        (seq 7 (length (get_vars
           (Clause (Relation "likes" [Var "x"; Var "y"])
                   [Relation "likes" [Var "x"; Var "z"];
                    Relation "likes" [Var "z"; Var "y"]]))))
  ∧ 10 = 7 + length (get_vars
           (Clause (Relation "likes" [Var "x"; Var "y"])
                   [Relation "likes" [Var "x"; Var "z"];
                    Relation "likes" [Var "z"; Var "y"]]))
  ∧ (∅ : gmap string (@entry Empty_set)) = ∅.
Proof.
  apply (recursive_rename_fresh
           (Clause (Relation "likes" [Var "x"; Var "y"])
                   [Relation "likes" [Var "x"; Var "z"];
                    Relation "likes" [Var "z"; Var "y"]])
           (Clause (Relation "likes" [Var "var7"; Var "var8"])
                   [Relation "likes" [Var "var7"; Var "var9"];
                    Relation "likes" [Var "var9"; Var "var8"]])
           (State ∅ 7) (State ∅ 10)).
  reflexivity.
Defined.

(** ** More on unification *)

Lemma unify_each_extends (f : term → term → result → option result) :
  (∀ x y e e', f x y (Env e) = Some (Env e') → e ⊆ e') →
  ∀ xs ys e e', unify_each f xs ys (Env e) = Some (Env e') → e ⊆ e'.
Proof.
  intros Hf xs. induction xs as [| x xs IH]; intros [| y ys] e e'; simpl;
    try (by intros [= <-]).
  destruct (f x y (Env e)) as [[| e1] |] eqn:E; try done.
  intros Hrest. etrans; [by eapply Hf | by eapply IH].
Qed.

Lemma unify_subseteq (fuel : nat) (x y : term) (e e' : env) :
  unify fuel x y (Env e) = Some (Env e') → e ⊆ e'.
Proof.
  revert x y e e'. induction fuel as [| fuel IH]; intros x y e e'; [done |].
  simpl. destruct (term_eqb x y); [by intros [= <-] |].
  destruct x as [a | v | p xs | h bs].
  - destruct y; try done. apply IH.
  - destruct (e !! v) eqn:Hv; [apply IH |].
    destruct (bound y e); [apply IH |].
    intros [= <-]. by apply insert_subseteq.
  - destruct y as [b | w | q ys | k cs]; try done; [apply IH |].
    destruct (negb (bool_decide (p = q))); [done |].
    destruct (negb (bool_decide (length xs = length ys))); [done |].
    by apply unify_each_extends.
  - destruct y as [b | w | q ys | k cs]; try done; [apply IH |].
    destruct (negb (bool_decide (length bs = length cs))); [done |].
    destruct (unify fuel h k (Env e)) as [[| e1] |] eqn:E; try done.
    intros Hrest. etrans; [by eapply IH |].
    by eapply (unify_each_extends (unify fuel)).
Qed.

(** X7. [unify] only ever adds bindings: when it succeeds, every binding of
    the dictionary it was given is in the dictionary it returns, with the
    same value. *)
Theorem unify_extends (fuel : nat) (x y : term) (e e' : env) :
  unify fuel x y (Env e) = Some (Env e') → e ⊆ e'.
Proof. apply unify_subseteq. Qed.

Lemma unify_extends_witness :
  ({["Z" := Atom "b"]} : env) ⊆ <["X" := Atom "a"]> {["Z" := Atom "b"]}.
Proof.
  apply (unify_extends 1 (Var "X") (Atom "a")).
  reflexivity.
Defined.

(** What the source says of two clauses: the body lengths must agree, then
    the heads and the body relations are unified in order, each from the
    dictionary of the step before. *)
Inductive clauses_rule (unify_rec : term → term → result → option result)
    (h : term) (bs : list term) (k : term) (cs : list term) (e : env)
    : result → Prop :=
  | clauses_rule_length :
      length bs ≠ length cs → clauses_rule unify_rec h bs k cs e Failure
  | clauses_rule_terms r :
      length bs = length cs →
      threaded unify_rec (h :: bs) (k :: cs) e r →
      clauses_rule unify_rec h bs k cs e r.

(** X9. Two clauses whose bodies differ in length do not unify; otherwise
    the heads and then the body relations are unified pairwise from left to
    right, the dictionary is threaded through, and the first failure ends
    the unification. *)
Theorem unify_clauses (fuel : nat) (h k : term) (bs cs : list term)
    (e : env) (r : result) :
  clauses_rule (unify fuel) h bs k cs e r →
  unify (S fuel) (Clause h bs) (Clause k cs) (Env e) = Some r.
Proof.
  intros Hrule.
  change (unify (S fuel) (Clause h bs) (Clause k cs) (Env e))
    with (if term_eqb (Clause h bs) (Clause k cs) then Some (Env e)
          else if negb (bool_decide (length bs = length cs))
          then Some Failure
          else match unify fuel h k (Env e) with
               | None => None
               | Some Failure => Some Failure
               | Some (Env e') => unify_each (unify fuel) bs cs (Env e')
               end).
  destruct Hrule as [Hlen | r' Hlen Hthr].
  - rewrite term_eqb_neq by congruence.
    by rewrite bool_decide_eq_false_2 by done.
  - destruct (term_eqb_spec (Clause h bs) (Clause k cs)) as [Heq | Hne].
    + injection Heq as <- <-. by apply threaded_same in Hthr as ->.
    + rewrite bool_decide_eq_true_2 by done. simpl.
      apply threaded_unify_each in Hthr. simpl in Hthr.
      by destruct (unify fuel h k (Env e)) as [[| e1] |].
Qed.

Lemma unify_clauses_witness :
  unify 4 (Clause (Relation "p" [Var "X"]) [Relation "q" [Var "X"]])
          (Clause (Relation "p" [Atom "a"]) [Relation "q" [Atom "b"]])
          (Env ∅)
  = Some Failure.
Proof.
  apply (unify_clauses 3 (Relation "p" [Var "X"]) (Relation "p" [Atom "a"])
           [Relation "q" [Var "X"]] [Relation "q" [Atom "b"]] ∅ Failure).
  apply clauses_rule_terms; [reflexivity |].
  apply (threaded_step _ _ _ _ _ ∅ {["X" := Atom "a"]}); [reflexivity |].
  apply threaded_fail. reflexivity.
Defined.

Lemma get_vars_nil_occurs (t : term) :
  get_vars t = [] ↔ ∀ v, ¬ occurs v t.
Proof.
  split.
  - intros Hnil v Hv%get_vars_occurs_iff. rewrite Hnil in Hv.
    by apply elem_of_nil in Hv.
  - intros Hno. destruct (get_vars t) as [| v vs] eqn:E; [done |].
    destruct (Hno v). apply get_vars_occurs_iff. rewrite E.
    apply list_elem_of_here.
Qed.

Lemma depth_elem (ts : list term) (t : term) :
  t ∈ ts → depth t ≤ foldr (λ a d, depth a `max` d) 0 ts.
Proof.
  induction ts as [| a ts IH]; intros Ht; [by apply elem_of_nil in Ht |].
  simpl. apply elem_of_cons in Ht as [-> | Ht]; [lia |].
  specialize (IH Ht). lia.
Qed.

Lemma unify_each_ground (f : term → term → result → option result)
    (e : env) (xs : list term) :
  Forall (λ x, ∀ y, get_vars y = [] →
               f x y (Env e)
               = Some (if term_eqb x y then Env e else Failure)) xs →
  ∀ ys,
    Forall (λ y, get_vars y = []) ys →
    length xs = length ys →
    list_eqb term_eqb xs ys = false →
    unify_each f xs ys (Env e) = Some Failure.
Proof.
  induction 1 as [| x xs Hx _ IH]; intros [| y ys] Hys Hlen Hneq;
    simpl in *; try done.
  apply Forall_cons in Hys as [Hy Hys].
  rewrite (Hx y Hy). destruct (term_eqb x y); [| done].
  apply IH; [done | lia | done].
Qed.

Lemma unify_ground_eq (x : term) :
  ∀ (y : term) (e : env) (fuel : nat),
    get_vars x = [] → get_vars y = [] → depth x < fuel →
    unify fuel x y (Env e)
    = Some (if term_eqb x y then Env e else Failure).
Proof.
  induction x as [a | v | p xs IH | h bs IHh IHbs] using term_nested_ind;
    intros y e [| fuel] Hx Hy Hd; try lia; try done.
  - destruct y as [b | w | q ys | k cs]; try done.
    simpl. by destruct (bool_decide (b = a)).
  - assert (Hargs : ∀ a, a ∈ xs → get_vars a = []).
    { intros a Ha. apply get_vars_nil_occurs. intros v Hv.
      apply (proj1 (get_vars_nil_occurs _) Hx v).
      by apply (occurs_arg v p xs a). }
    rewrite Forall_forall in IH.
    destruct y as [b | w | q ys | k cs]; try done.
    rewrite unify_Relation_unfold.
    destruct (term_eqb (Relation p xs) (Relation q ys)) eqn:Heq; [done |].
    destruct (bool_decide (p = q)) eqn:Hpq; [| done].
    destruct (bool_decide (length xs = length ys)) eqn:Hlen; [| done].
    simpl. apply bool_decide_eq_true in Hlen.
    apply unify_each_ground; [| | done |].
    + apply Forall_forall. intros a Ha y' Hy'.
      apply IH; [done | by apply Hargs | done |].
      simpl in Hd. pose proof (depth_elem xs a Ha). lia.
    + apply Forall_forall. intros a Ha. apply get_vars_nil_occurs.
      intros v Hv. apply (proj1 (get_vars_nil_occurs _) Hy v).
      by apply (occurs_arg v q ys a).
    + simpl in Heq. by rewrite Hpq in Heq.
  - assert (Hh : get_vars h = []).
    { apply get_vars_nil_occurs. intros v Hv.
      apply (proj1 (get_vars_nil_occurs _) Hx v). by apply occurs_head. }
    assert (Hbs : ∀ r, r ∈ bs → get_vars r = []).
    { intros r Hr. apply get_vars_nil_occurs. intros v Hv.
      apply (proj1 (get_vars_nil_occurs _) Hx v).
      by apply (occurs_body v h bs r). }
    rewrite Forall_forall in IHbs.
    destruct y as [b | w | q ys | k cs]; try done.
    assert (Hk : get_vars k = []).
    { apply get_vars_nil_occurs. intros v Hv.
      apply (proj1 (get_vars_nil_occurs _) Hy v). by apply occurs_head. }
    simpl in Hd.
    change (unify (S fuel) (Clause h bs) (Clause k cs) (Env e))
      with (if term_eqb (Clause h bs) (Clause k cs) then Some (Env e)
            else if negb (bool_decide (length bs = length cs))
            then Some Failure
            else match unify fuel h k (Env e) with
                 | None => None
                 | Some Failure => Some Failure
                 | Some (Env e') => unify_each (unify fuel) bs cs (Env e')
                 end).
    destruct (term_eqb (Clause h bs) (Clause k cs)) eqn:Heq; [done |].
    destruct (bool_decide (length bs = length cs)) eqn:Hlen; [| done].
    simpl. apply bool_decide_eq_true in Hlen.
    rewrite (IHh k e fuel) by (done || lia).
    simpl in Heq. destruct (term_eqb h k); [| done]. simpl in Heq.
    apply unify_each_ground; [| | done | done].
    + apply Forall_forall. intros r Hr y' Hy'.
      apply IHbs; [done | by apply Hbs | done |].
      pose proof (depth_elem bs r Hr). lia.
    + apply Forall_forall. intros r Hr. apply get_vars_nil_occurs.
      intros v Hv. apply (proj1 (get_vars_nil_occurs _) Hy v).
      by apply (occurs_body v k cs r).
Qed.

(** X8. On terms without variables [unify] is a test for structural
    equality: it returns the bindings unchanged when the two terms are
    equal and [False] when they differ.  (The budget only has to cover the
    nesting depth of the first term.) *)
Theorem unify_ground (x : term) :
  ∀ (y : term) (e : env) (fuel : nat),
    get_vars x = [] → get_vars y = [] → depth x < fuel →
    unify fuel x y (Env e)
    = Some (if term_eqb x y then Env e else Failure).
Proof. apply unify_ground_eq. Qed.

Lemma unify_ground_witness :
  unify 2 (Relation "likes" [Atom "Kim"; Atom "Robin"])
          (Relation "likes" [Atom "Sandy"; Atom "Lee"]) (Env ∅)
  = Some (if term_eqb (Relation "likes" [Atom "Kim"; Atom "Robin"])
                      (Relation "likes" [Atom "Sandy"; Atom "Lee"])
          then Env ∅ else Failure).
Proof.
  apply (unify_ground (Relation "likes" [Atom "Kim"; Atom "Robin"])
           (Relation "likes" [Atom "Sandy"; Atom "Lee"]) ∅ 2).
  - reflexivity.
  - reflexivity.
  - simpl. lia.
Defined.

(** ** Binding and looking up *)

(** X10. Binding followed by lookup.  When [v] is unbound, and [t] is
    neither [v] itself, nor a bound variable, nor a relation, then
    [unify(v, t, bindings)] returns the bindings extended with [v ↦ t], and
    looking [v] up in the result gives [t] back. *)
Theorem unify_then_lookup (v : string) (t : term) (e : env)
    (fuel fuel' : nat) :
  e !! v = None → t ≠ Var v → bound t e = None → is_relation t = false →
  unify (S fuel) (Var v) t (Env e) = Some (Env (<[v := t]> e)) ∧
  lookup (S fuel') v (<[v := t]> e) = Some (Some t).
Proof.
  intros Hv Hne Hb Hrel. split.
  - destruct t as [a | w | p args | h rs]; simpl in *; rewrite ?Hv;
      try done.
    rewrite bool_decide_eq_false_2 by congruence. by rewrite ?Hv, ?Hb.
  - unfold lookup. rewrite lookup_insert_eq, lookup_from_unfold.
    destruct t as [a | w | p args | h rs]; try done.
    + by rewrite follow_term.
    + assert (v ≠ w) by congruence. simpl in Hb.
      rewrite follow_unbound by (by rewrite lookup_insert_ne). done.
    + by rewrite follow_term.
Qed.

Lemma unify_then_lookup_witness :
  unify 1 (Var "X") (Atom "a") (Env ∅) = Some (Env (<["X" := Atom "a"]> ∅))
  ∧ lookup 1 "X" (<["X" := Atom "a"]> ∅) = Some (Some (Atom "a")).
Proof.
  apply (unify_then_lookup "X" (Atom "a") ∅ 0 0).
  - reflexivity.
  - discriminate.
  - reflexivity.
  - reflexivity.
Defined.

Lemma bind_args_unbound (f : string → term → env → option term)
    (args : list term) (e : env) :
  (∀ w, Var w ∈ args → e !! w = None) → bind_args f args e = Some args.
Proof.
  induction args as [| a args IH]; intros Hun; simpl; [done |].
  rewrite IH by (intros w Hw; by apply Hun, list_elem_of_further).
  destruct a as [| w | |]; try done.
  by rewrite (Hun w) by apply list_elem_of_here.
Qed.

(** X11. [Relation.bind_vars] returns the relation as it is when none of
    its arguments is a bound variable, whatever else the bindings hold; so
    it does with the empty dictionary. *)
Theorem Relation_bind_vars_unbound (fuel : nat) (p : string)
    (args : list term) (e : env) :
  (∀ w, Var w ∈ args → e !! w = None) →
  Relation_bind_vars fuel p args e = Some (Relation p args).
Proof.
  intros Hun. unfold Relation_bind_vars. by rewrite bind_args_unbound.
Qed.

Lemma Relation_bind_vars_unbound_witness :
  Relation_bind_vars 0 "p" [Var "X"; Relation "g" [Var "Y"]]
                     {["Y" := Atom "a"]}
  = Some (Relation "p" [Var "X"; Relation "g" [Var "Y"]]).
Proof.
  apply (Relation_bind_vars_unbound 0 "p" [Var "X"; Relation "g" [Var "Y"]]
           {["Y" := Atom "a"]}).
  intros w Hw. apply elem_of_cons in Hw as [[= ->] | Hw]; [reflexivity |].
  apply list_elem_of_singleton in Hw. discriminate.
Defined.

(** ** The database: [store] and [define_primitive] *)

(** A clause as [store] needs it: a [Clause] whose head is a [Relation]. *)
Definition storable (c : term) : Prop := is_Some (clause_pred c).

Section StoreFacts.

Context {prim : Type}.
Implicit Types (st : @state prim) (name p : string).

(** No primitive is stored in the database. *)
Definition only_clauses st : Prop :=
  ∀ name fn, clauses st !! name ≠ Some (Primitive fn).

Lemma store_only_clauses (c : term) st :
  storable c → only_clauses st →
  ∃ st', store c st = Ret st' ∧ only_clauses st' ∧ counter st' = counter st.
Proof.
  intros [p Hp] Honly. unfold store.
  destruct c as [| | | [| | q args |] body]; try done.
  destruct (clauses st !! q) as [[l | fn] |] eqn:E.
  - eexists. split; [done |]. split; [| done].
    intros name fn. simpl.
    destruct (decide (q = name)) as [<- | Hne];
      [by rewrite lookup_insert_eq | rewrite lookup_insert_ne by done].
    apply Honly.
  - by destruct (Honly q fn).
  - eexists. split; [done |]. split; [| done].
    intros name fn. simpl.
    destruct (decide (q = name)) as [<- | Hne];
      [by rewrite lookup_insert_eq | rewrite lookup_insert_ne by done].
    apply Honly.
Qed.

Lemma store_all_only_clauses (cs : list term) :
  ∀ st,
    Forall storable cs → only_clauses st →
    ∃ st', store_all cs st = Ret st' ∧ only_clauses st'
           ∧ counter st' = counter st.
Proof.
  induction cs as [| c cs IH]; intros st Hcs Honly; simpl.
  - by exists st.
  - apply Forall_cons in Hcs as [Hc Hcs].
    destruct (store_only_clauses c st Hc Honly) as (st1 & -> & Honly1 & Hc1).
    simpl. destruct (IH st1 Hcs Honly1) as (st' & -> & ? & Hc').
    exists st'. split; [done |]. split; [done | congruence].
Qed.

(** X13. Building a database from facts and rules that are clauses with a
    relation for head never raises; the database then holds, under every
    name, exactly the clauses with that head predicate, in the order given
    (facts before rules), and no primitive. *)
Theorem Database_builds (facts rules : list term) (n : nat) :
  Forall storable (facts ++ rules) →
  ∃ st : @state prim,
    Database facts rules n = Ret st ∧
    counter st = n ∧
    only_clauses st ∧
    ∀ name, sequence st name = stored_under name (facts ++ rules).
Proof.
  intros Hcs. unfold Database.
  destruct (store_all_only_clauses (facts ++ rules) (State ∅ n) Hcs)
    as (st & Hst & Honly & Hctr).
  { intros name fn. simpl. by rewrite lookup_empty. }
  exists st. split; [done |]. split; [done |]. split; [done |].
  intros name.
  pose proof (Database_query facts rules n st name Hst) as Hq.
  rewrite query_fst in Hq by (intros fn; apply Honly).
  by injection Hq.
Qed.

(** X12. A name holds either clauses or a primitive.  [define_primitive]
    replaces whatever sequence of clauses was stored under the name, and
    [store] of a clause whose predicate holds a primitive raises (the
    primitive has no [append]) instead of storing. *)
Theorem primitive_replaces_clauses (c : term) (fn : prim) st name :
  clause_pred c = Some name →
  (query name (define_primitive name fn st)).1 = Primitive fn ∧
  sequence (define_primitive name fn st) name = [] ∧
  store c (define_primitive name fn st) = Raise.
Proof.
  intros Hc. unfold query, sequence, store, define_primitive. simpl.
  destruct c as [| | | [| | q args |] body]; try done.
  injection Hc as ->. simpl. by rewrite !lookup_insert_eq.
Qed.

End StoreFacts.

Lemma Database_builds_witness :
  ∃ st : @state Empty_set,
    Database [fact_pa] [rule_loop] 5 = Ret st ∧
    counter st = 5 ∧
    only_clauses st ∧
    ∀ name, sequence st name = stored_under name ([fact_pa] ++ [rule_loop]).
Proof.
  apply (Database_builds [fact_pa] [rule_loop] 5).
  repeat constructor; by eexists.
Defined.

Lemma primitive_replaces_clauses_witness :
  (query "p" (define_primitive "p" tt (State {["p" := Clauses [fact_pa]]} 0))).1
  = Primitive tt ∧
  sequence (define_primitive "p" tt (State {["p" := Clauses [fact_pa]]} 0)) "p"
  = [] ∧
  store fact_pa (define_primitive "p" tt (State {["p" := Clauses [fact_pa]]} 0))
  = Raise.
Proof.
  apply (primitive_replaces_clauses fact_pa tt
           (State {["p" := Clauses [fact_pa]]} 0) "p").
  reflexivity.
Defined.

(** ** What resolution keeps *)

(** Between two states: the counter did not go back, and every name holds
    what it held, except that a name that was unknown may now hold an empty
    sequence. *)
Definition kept {prim : Type} (st st' : @state prim) : Prop :=
  counter st ≤ counter st' ∧
  ∀ name,
    clauses st' !! name = clauses st !! name ∨
    (clauses st !! name = None ∧ clauses st' !! name = Some (Clauses [])).

(** Every returning call of [k] keeps the state in that sense. *)
Definition keeps_state {prim : Type}
    (k : list term → result → @state prim → outcome (result * @state prim))
    : Prop :=
  ∀ goals b st r st', k goals b st = Ret (r, st') → kept st st'.

(** Every successful call of [k] returns bindings that contain the ones it
    was given. *)
Definition extends_bindings {prim : Type}
    (k : list term → result → @state prim → outcome (result * @state prim))
    : Prop :=
  ∀ goals e st e' st', k goals (Env e) st = Ret (Env e', st') → e ⊆ e'.

(** A primitive that goes on with the remaining goals under the bindings it
    was given, as [display_bindings] does when the answer is not yes. *)
Definition continue_prim (fn : unit)
    (k : list term → result → @state unit → outcome (result * @state unit))
    (args : list term) (e : env) (remaining : list term) (st : @state unit)
    : outcome (result * @state unit) :=
  k remaining (Env e) st.

(** The fact [p(a)] and the primitive [show]. *)
Definition db_show : @state unit :=
  State (<["show" := Primitive tt]> {["p" := Clauses [fact_pa]]}) 0.

Section KeepsDatabase.

Context {prim : Type}.
Variable call_prim :
  prim →
  (list term → result → @state prim → outcome (result * @state prim)) →
  list term → env → list term → @state prim →
  outcome (result * @state prim).
Implicit Types (st : @state prim).

(** The condition on the host's primitives: a primitive keeps the state
    when the continuation it is given does. *)
Hypothesis prims_keep_state :
  ∀ fn k args e remaining st r st',
    keeps_state k →
    call_prim fn k args e remaining st = Ret (r, st') → kept st st'.

Lemma kept_refl st : kept st st.
Proof. split; [done |]. intros name. by left. Qed.

Lemma kept_trans st1 st2 st3 : kept st1 st2 → kept st2 st3 → kept st1 st3.
Proof.
  intros [Hc1 H1] [Hc2 H2]. split; [lia |]. intros name.
  destruct (H1 name) as [E1 | [E1 E1']], (H2 name) as [E2 | [E2 E2']].
  - left. congruence.
  - right. split; congruence.
  - right. split; congruence.
  - congruence.
Qed.

Lemma query_kept (p : string) st : kept st (query p st).2.
Proof.
  unfold query. destruct (clauses st !! p) eqn:E; simpl; [apply kept_refl |].
  split; [done |]. intros name. simpl.
  destruct (decide (p = name)) as [<- | Hne].
  - right. by rewrite lookup_insert_eq.
  - left. by rewrite lookup_insert_ne.
Qed.

Lemma recursive_rename_kept (c c' : term) st st' :
  recursive_rename c st = Ret (c', st') → kept st st'.
Proof.
  intros H. destruct (recursive_rename_names c c' st st' H) as (_ & Hc & Hd).
  split; [lia |]. intros name. left. by rewrite Hd.
Qed.

Lemma try_clauses_keeps
    (rec : list term → result → @state prim → outcome (result * @state prim))
    (fuel : nat) (goal : term) (e : env) (remaining : list term) :
  keeps_state rec →
  ∀ cs st r st',
    try_clauses rec fuel goal e remaining cs st = Ret (r, st') → kept st st'.
Proof.
  intros Hrec cs. induction cs as [| c cs IH]; intros st r st'.
  - simpl. intros [= <- <-]. apply kept_refl.
  - cbn [try_clauses].
    destruct (recursive_rename c st) as [[renamed st1] | |] eqn:Hren;
      cbn [bind]; try done.
    apply recursive_rename_kept in Hren.
    assert (Hnext : try_clauses rec fuel goal e remaining cs st1
                    = Ret (r, st') → kept st st').
    { intros H. apply kept_trans with st1; [done | by eapply IH]. }
    destruct renamed as [| | | rhead rbody]; try done.
    destruct (unify fuel goal rhead (Env e)) as [[| u] |];
      cbn [budgeted bind]; try done.
    destruct (falsy (Env u)); [done |].
    destruct (bind_vars fuel (Clause rhead rbody) u) as [[| | | h' rs'] | |];
      cbn [bind]; try done.
    destruct (term_in h' rs'); [done |].
    destruct (rec (rs' ++ remaining) (Env u) st1)
      as [[extended st2] | |] eqn:Hall; cbn [bind]; try done.
    apply Hrec in Hall.
    assert (H12 : kept st st2) by (by apply kept_trans with st1).
    destruct (falsy extended).
    + intros H. apply kept_trans with st2; [done | by eapply IH].
    + by intros [= <- <-].
Qed.

Lemma prove_keeps (fuel : nat) :
  keeps_state (prove_all call_prim fuel) ∧
  ∀ goal b remaining st r st',
    prove call_prim fuel goal b remaining st = Ret (r, st') → kept st st'.
Proof.
  induction fuel as [| fuel [IHall IHprove]]; [by split |].
  split.
  - intros goals [| e] st r st'; simpl.
    + intros [= <- <-]. apply kept_refl.
    + destruct goals as [| g rest]; [| apply IHprove].
      intros [= <- <-]. apply kept_refl.
  - intros goal [| e] remaining st r st'.
    + simpl. intros [= <- <-]. apply kept_refl.
    + destruct goal as [| | p args |]; try done.
      rewrite prove_unfold.
      pose proof (query_kept p st) as Hq.
      destruct (query p st).1 as [[| c cs] | fn].
      * by intros [= <- <-].
      * intros H. apply kept_trans with (query p st).2; [done |].
        by eapply (try_clauses_keeps _ _ _ _ _ IHall).
      * intros H. apply kept_trans with (query p st).2; [done |].
        by eapply prims_keep_state.
Qed.

(** X14. Resolution keeps the database.  Provided every stored primitive
    keeps the state whenever the continuation it calls does, then after
    [prove_all] or [prove] returns every name that was in the database maps
    to the entry it had, the only additions are empty sequences under names
    that were unknown, and [Var.counter] has not decreased. *)
Theorem prove_keeps_database (fuel : nat) (b : result) st st' (r : result) :
  (∀ goals,
     prove_all call_prim fuel goals b st = Ret (r, st') →
     clauses st ⊆ clauses st' ∧ counter st ≤ counter st' ∧
     ∀ name,
       clauses st' !! name = clauses st !! name ∨
       (clauses st !! name = None ∧ clauses st' !! name = Some (Clauses [])))
  ∧
  (∀ goal remaining,
     prove call_prim fuel goal b remaining st = Ret (r, st') →
     clauses st ⊆ clauses st' ∧ counter st ≤ counter st' ∧
     ∀ name,
       clauses st' !! name = clauses st !! name ∨
       (clauses st !! name = None ∧ clauses st' !! name = Some (Clauses []))).
Proof.
  assert (Hsub : kept st st' →
    clauses st ⊆ clauses st' ∧ counter st ≤ counter st' ∧
    ∀ name,
      clauses st' !! name = clauses st !! name ∨
      (clauses st !! name = None ∧ clauses st' !! name = Some (Clauses []))).
  { intros [Hc Hn]. split; [| by split].
    apply map_subseteq_spec. intros name en Hen.
    destruct (Hn name) as [E | [E _]]; congruence. }
  destruct (prove_keeps fuel) as [Hall Hprove]. split.
  - intros goals H. by apply Hsub, (Hall _ _ _ _ _ H).
  - intros goal remaining H. by apply Hsub, (Hprove _ _ _ _ _ _ H).
Qed.

End KeepsDatabase.

Section ExtendsBindings.

Context {prim : Type}.
Variable call_prim :
  prim →
  (list term → result → @state prim → outcome (result * @state prim)) →
  list term → env → list term → @state prim →
  outcome (result * @state prim).
Implicit Types (st : @state prim).

(** The condition on the host's primitives: a primitive that succeeds
    returns bindings that contain the ones it was given, when the
    continuation it is given does so. *)
Hypothesis prims_extend :
  ∀ fn k args e remaining st e' st',
    extends_bindings k →
    call_prim fn k args e remaining st = Ret (Env e', st') → e ⊆ e'.

Lemma try_clauses_extends
    (rec : list term → result → @state prim → outcome (result * @state prim))
    (fuel : nat) (goal : term) (e : env) (remaining : list term) :
  extends_bindings rec →
  ∀ cs st e' st',
    try_clauses rec fuel goal e remaining cs st = Ret (Env e', st') →
    e ⊆ e'.
Proof.
  intros Hrec cs. induction cs as [| c cs IH]; intros st e' st'; [done |].
  cbn [try_clauses].
  destruct (recursive_rename c st) as [[renamed st1] | |];
    cbn [bind]; try done.
  destruct renamed as [| | | rhead rbody]; try done.
  destruct (unify fuel goal rhead (Env e)) as [[| u] |] eqn:Huni;
    cbn [budgeted bind]; try done; [apply IH |].
  destruct (falsy (Env u)); [apply IH |].
  destruct (bind_vars fuel (Clause rhead rbody) u) as [[| | | h' rs'] | |];
    cbn [bind]; try done.
  destruct (term_in h' rs'); [apply IH |].
  destruct (rec (rs' ++ remaining) (Env u) st1)
    as [[extended st2] | |] eqn:Hall; cbn [bind]; try done.
  destruct (falsy extended); [apply IH |].
  intros [= -> <-].
  etrans; [by eapply unify_subseteq | by eapply Hrec].
Qed.

Lemma prove_extends (fuel : nat) :
  extends_bindings (prove_all call_prim fuel) ∧
  ∀ goal remaining e st e' st',
    prove call_prim fuel goal (Env e) remaining st = Ret (Env e', st') →
    e ⊆ e'.
Proof.
  induction fuel as [| fuel [IHall IHprove]]; [by split |].
  split.
  - intros [| g rest] e st e' st'; simpl; [by intros [= <- <-] |].
    apply IHprove.
  - intros goal remaining e st e' st'.
    destruct goal as [| | p args |]; try done.
    rewrite prove_unfold.
    destruct (query p st).1 as [[| c cs] | fn]; [done | |].
    + by apply try_clauses_extends.
    + by apply prims_extend.
Qed.


End ExtendsBindings.

(** The goals [p(X), show(X), q(X)] against the fact [p(a)] and the
    primitive [show] that goes on with the remaining goals: [q] is unknown,
    so the proof fails after [show] ran, [q] got an empty sequence, and
    everything else is as before. *)
Lemma prove_keeps_database_witness :
  clauses db_show
  ⊆ clauses (State (<["q" := Clauses []]> (clauses db_show)) 0) ∧
  counter db_show
  ≤ counter (State (<["q" := Clauses []]> (clauses db_show)) 0) ∧
  ∀ name,
    clauses (State (<["q" := Clauses []]> (clauses db_show)) 0) !! name
    = clauses db_show !! name ∨
    (clauses db_show !! name = None ∧
     clauses (State (<["q" := Clauses []]> (clauses db_show)) 0) !! name
     = Some (Clauses [])).
Proof.
  apply (proj1 (prove_keeps_database continue_prim
                  (λ fn k args e remaining st r st' Hk H, Hk _ _ _ _ _ H)
                  6 (Env ∅) db_show
                  (State (<["q" := Clauses []]> (clauses db_show)) 0)
                  Failure)
           [Relation "p" [Var "X"]; Relation "show" [Var "X"];
            Relation "q" [Var "X"]]).
  reflexivity.
Defined.


(** ** The order of the candidates *)

(** The head of the clause [c], renamed from any value of the counter,
    does not unify with [goal] under [e]. *)
Definition head_never_unifies (fuel : nat) (goal : term) (e : env)
    (c : term) : Prop :=
  ∃ h b,
    c = Clause h b ∧
    ∀ n, unify fuel goal (rename_vars h (renames_from n (get_vars c) ∅))
               (Env e) = Some Failure.

(** The number of fresh names that renaming the clauses [cs] takes. *)
Definition names_taken (cs : list term) : nat :=
  sum_list_with (λ c, length (get_vars c)) cs.

Section CandidateOrder.

Context {prim : Type}.
Variable call_prim :
  prim →
  (list term → result → @state prim → outcome (result * @state prim)) →
  list term → env → list term → @state prim →
  outcome (result * @state prim).
Implicit Types (st : @state prim).

Lemma try_clauses_skips
    (rec : list term → result → @state prim → outcome (result * @state prim))
    (fuel : nat) (goal : term) (e : env) (remaining : list term)
    (pre cs : list term) :
  Forall (head_never_unifies fuel goal e) pre →
  ∀ st,
    try_clauses rec fuel goal e remaining (pre ++ cs) st
    = try_clauses rec fuel goal e remaining cs
        (State (clauses st) (counter st + names_taken pre)).
Proof.
  induction 1 as [| c pre (h & b & -> & Hc) _ IH]; intros st.
  - simpl. unfold names_taken. simpl. rewrite Nat.add_0_r. by destruct st.
  - change ((Clause h b :: pre) ++ cs) with (Clause h b :: (pre ++ cs)).
    cbn [try_clauses recursive_rename rename_vars bind].
    rewrite (Hc (counter st)). cbn [budgeted bind].
    rewrite IH. simpl clauses. simpl counter. unfold names_taken. simpl.
    by rewrite Nat.add_assoc.
Qed.


End CandidateOrder.


(** The demo of [examples/logic/transitive.py], up to the point where
    [display_bindings] would be called: the first answer is [who ↦ Lee]. *)
Example transitive_first_answer :
  let kim := Atom "Kim" in
  let robin := Atom "Robin" in
  let sandy := Atom "Sandy" in
  let lee := Atom "Lee" in
  let cats := Atom "cats" in
  let likes a b := Relation "likes" [a; b] in
  let facts :=
    [Clause (likes kim robin) []; Clause (likes sandy lee) [];
     Clause (likes sandy kim) []; Clause (likes robin cats) [];
     Clause (likes lee robin) []; Clause (likes (Var "x") (Var "x")) [];
     Clause (likes (Var "x") (Var "y"))
            [likes (Var "x") (Var "z"); likes (Var "z") (Var "y")]] in
  ∃ st st' : @state Empty_set,
    Database facts [] 0 = Ret st ∧
    prove no_primitives 5 (likes sandy (Var "who")) (Env ∅) [] st
    = Ret (Env {["who" := lee]}, st').
Proof. simpl. eexists _, _. split; reflexivity. Qed.

(** ** The shape of bound clauses *)

Lemma bind_args_length (f : string → term → env → option term)
    (args args' : list term) (e : env) :
  bind_args f args e = Some args' → length args' = length args.
Proof.
  revert args'. induction args as [| a args IH]; intros args'; simpl.
  - by intros [= <-].
  - destruct (match a with
              | Var w => match e !! w with
                         | Some t => f w t e
                         | None => Some a
                         end
              | _ => Some a
              end) as [a' |]; [| done].
    destruct (bind_args f args e) as [rest |]; [| done].
    intros [= <-]. simpl. f_equal. by apply IH.
Qed.

(** X17. Binding keeps predicate names and arities.  When
    [Relation.bind_vars] returns, the result is a relation with the same
    predicate and the same number of arguments; when [Clause.bind_vars]
    returns on a clause whose head is a relation, the result is a clause
    whose head has the same predicate and arity, with a body of the same
    length. *)
Theorem bind_vars_keeps_shape (fuel : nat) (p : string) (args : list term)
    (body : list term) (e : env) :
  (∀ t, Relation_bind_vars fuel p args e = Some t →
        ∃ args', t = Relation p args' ∧ length args' = length args) ∧
  (∀ c, bind_vars fuel (Clause (Relation p args) body) e = Ret c →
        ∃ args' body',
          c = Clause (Relation p args') body' ∧
          length args' = length args ∧ length body' = length body).
Proof.
  assert (Hrel : ∀ t, Relation_bind_vars fuel p args e = Some t →
                      ∃ args', t = Relation p args'
                               ∧ length args' = length args).
  { intros t. unfold Relation_bind_vars.
    destruct (bind_args (lookup_from fuel) args e) as [args' |] eqn:E;
      [| done].
    intros [= <-]. exists args'. split; [done |].
    by apply bind_args_length in E. }
  split; [done |].
  intros c. cbn [bind_vars].
  destruct (Relation_bind_vars fuel p args e) as [t |] eqn:E;
    cbn [budgeted bind]; [| done].
  destruct (Hrel t eq_refl) as (args' & -> & Hlen).
  match goal with
  | |- bind ?m _ = _ → _ =>
      assert (Hbody : ∀ body', m = Ret body' → length body' = length body)
  end.
  { clear. induction body as [| r body IH]; intros body'.
    - by intros [= <-].
    - destruct (bind_vars fuel r e) as [r' | |]; cbn [bind]; try done.
      match goal with
      | |- bind ?m _ = _ → _ => destruct m as [rest | |] eqn:Erest
      end; cbn [bind]; try done.
      intros [= <-]. simpl. f_equal. by apply IH. }
  match goal with
  | |- bind ?m _ = _ → _ => destruct m as [body' | |] eqn:Eb
  end; cbn [bind]; try done.
  intros [= <-]. exists args', body'. split; [done |]. split; [done |].
  by apply Hbody.
Qed.

Lemma bind_vars_keeps_shape_witness :
  ∃ args' body',
    Clause (Relation "p" [Atom "a"]) [Relation "q" [Atom "a"; Var "Y"]]
    = Clause (Relation "p" args') body' ∧
    length args' = length [Var "X"] ∧
    length body' = length [Relation "q" [Var "X"; Var "Y"]].
Proof.
  apply (proj2 (bind_vars_keeps_shape 2 "p" [Var "X"]
                  [Relation "q" [Var "X"; Var "Y"]] {["X" := Atom "a"]})).
  reflexivity.
Defined.

(** ** The loop guard and nested relations *)

Lemma unify_goal_nested (fuel : nat) (v : string) (e : env) :
  e !! v = None →
  unify fuel goal_nested (Relation "p" [Relation "f" [Var v]]) (Env e) = None
  ∨ unify fuel goal_nested (Relation "p" [Relation "f" [Var v]]) (Env e)
    = Some (Env (<[v := Atom "a"]> e)).
Proof.
  intros Hv.
  destruct fuel as [| [| [| [| fuel]]]]; simpl; try (by left).
  rewrite Hv. by right.
Qed.

Lemma prove_goal_nested_diverges (fuel : nat) :
  ∀ (e : env) (n : nat),
    (∀ m, n ≤ m → e !! var_name m = None) →
    prove no_primitives fuel goal_nested (Env e) []
          (State (clauses db_nested) n)
    = Exhausted.
Proof.
  induction fuel as [fuel IH] using lt_wf_ind. intros e n Hfresh.
  destruct fuel as [| fuel]; [done |].
  assert (Hq : query "p" (State (clauses db_nested) n)
               = (Clauses [rule_nested], State (clauses db_nested) n))
    by reflexivity.
  assert (Hren : recursive_rename rule_nested (State (clauses db_nested) n)
                 = Ret (Clause (Relation "p" [Relation "f" [Var (var_name n)]])
                               [goal_nested],
                        State (clauses db_nested) (n + 1)))
    by reflexivity.
  unfold goal_nested at 1. rewrite prove_unfold, Hq.
  cbn [fst snd try_clauses]. rewrite Hren. cbn [bind].
  change (Relation "p" [Relation "f" [Atom "a"]]) with goal_nested.
  destruct (unify_goal_nested fuel (var_name n) e (Hfresh n (le_n n)))
    as [-> | ->]; [done |].
  cbn [budgeted bind falsy].
  rewrite bool_decide_eq_false_2 by apply insert_non_empty.
  simpl bind_vars. cbn [bind]. cbn [term_in].
  simpl existsb.
  destruct fuel as [| fuel]; [done |].
  simpl prove_all.
  rewrite IH; [done | lia |].
  intros m Hm. rewrite lookup_insert_ne; [apply Hfresh; lia |].
  intros Heq. apply var_name_injective in Heq. lia.
Qed.

(** C6, the behaviour at the failing input.  The database holds the rule
    [p(f(X)) :- p(f(a))], the goal is [p(f(a))] and the bindings are empty.
    The renamed head [p(f(var0))] unifies with the goal under [{var0: a}],
    and with that binding applied the head is [p(f(a))], the clause's one
    body relation.  [Clause.bind_vars] however returns the renamed clause as
    it is, since [Relation.bind_vars] looks at direct arguments only; the
    head [p(f(var0))] is then not in the body, the candidate is not
    rejected, and [prove] goes on to prove the body [p(f(a))], the very goal
    it started from: no recursion budget is enough for it to return. *)
Theorem prove_loop_guard_misses_nested :
  recursive_rename rule_nested db_nested
  = Ret (Clause (Relation "p" [Relation "f" [Var "var0"]]) [goal_nested],
         State (clauses db_nested) 1) ∧
  unify 4 goal_nested (Relation "p" [Relation "f" [Var "var0"]]) (Env ∅)
  = Some (Env {["var0" := Atom "a"]}) ∧
  rename_vars (Clause (Relation "p" [Relation "f" [Var "var0"]])
                      [goal_nested])
              {["var0" := Atom "a"]}
  = Clause goal_nested [goal_nested] ∧
  (∀ fuel,
     bind_vars fuel (Clause (Relation "p" [Relation "f" [Var "var0"]])
                            [goal_nested])
               {["var0" := Atom "a"]}
     = Ret (Clause (Relation "p" [Relation "f" [Var "var0"]])
                   [goal_nested])) ∧
  term_in (Relation "p" [Relation "f" [Var "var0"]]) [goal_nested] = false ∧
  (∀ fuel,
     prove no_primitives fuel goal_nested (Env ∅) [] db_nested = Exhausted).
Proof.
  split; [reflexivity |]. split; [reflexivity |]. split; [reflexivity |].
  split; [intros fuel; reflexivity |]. split; [reflexivity |].
  intros fuel. apply (prove_goal_nested_diverges fuel ∅ 0).
  intros m _. apply lookup_empty.
Qed.

(** ** Symmetry of unification *)

Lemma unify_unfold (fuel : nat) (x y : term) (e : env) :
  unify (S fuel) x y (Env e) =
    if term_eqb x y then Some (Env e)
    else
      match x, y with
      | Var v, _ =>
          match e !! v with
          | Some bx => unify fuel bx y (Env e)
          | None =>
              match bound y e with
              | Some by' => unify fuel x by' (Env e)
              | None => Some (Env (<[v := y]> e))
              end
          end
      | _, Var _ => unify fuel y x (Env e)
      | Relation p xs, Relation q ys =>
          if negb (bool_decide (p = q)) then Some Failure
          else if negb (bool_decide (length xs = length ys))
          then Some Failure
          else unify_each (unify fuel) xs ys (Env e)
      | Clause h bs, Clause k cs =>
          if negb (bool_decide (length bs = length cs))
          then Some Failure
          else unify_each (unify fuel) (h :: bs) (k :: cs) (Env e)
      | _, _ => Some Failure
      end.
Proof. by destruct x, y. Qed.

Lemma unify_neq (fuel : nat) (x y : term) (e : env) :
  x ≠ y →
  unify (S fuel) x y (Env e) =
    match x, y with
    | Var v, _ =>
        match e !! v with
        | Some bx => unify fuel bx y (Env e)
        | None =>
            match bound y e with
            | Some by' => unify fuel x by' (Env e)
            | None => Some (Env (<[v := y]> e))
            end
        end
    | _, Var _ => unify fuel y x (Env e)
    | Relation p xs, Relation q ys =>
        if negb (bool_decide (p = q)) then Some Failure
        else if negb (bool_decide (length xs = length ys))
        then Some Failure
        else unify_each (unify fuel) xs ys (Env e)
    | Clause h bs, Clause k cs =>
        if negb (bool_decide (length bs = length cs))
        then Some Failure
        else unify_each (unify fuel) (h :: bs) (k :: cs) (Env e)
    | _, _ => Some Failure
    end.
Proof. intros Hne. by rewrite unify_unfold, term_eqb_neq. Qed.

Lemma unify_eq (fuel : nat) (x : term) (e : env) :
  unify (S fuel) x x (Env e) = Some (Env e).
Proof. by rewrite unify_unfold, term_eqb_refl. Qed.

Lemma unify_each_cons (k1 k2 : nat) (x y : term) (xs ys : list term)
    (e : env) (r1 r : result) :
  unify k1 x y (Env e) = Some r1 →
  match r1 with
  | Failure => r = Failure
  | Env e1 => unify_each (unify k2) xs ys (Env e1) = Some r
  end →
  unify_each (unify (k1 `max` k2)) (x :: xs) (y :: ys) (Env e) = Some r.
Proof.
  intros H1 H2. cbn [unify_each].
  rewrite (unify_mono _ _ _ _ _ H1) by lia.
  destruct r1 as [| e1]; [by subst |].
  apply (unify_each_mono (unify k2)); [| done].
  intros x' y' b r' H. apply (unify_mono _ _ _ _ _ H). lia.
Qed.

Lemma variable_free_not_var (t : term) : variable_free t → is_var t = false.
Proof. by destruct t. Qed.

Lemma variable_free_args (p : string) (xs : list term) :
  variable_free (Relation p xs) → Forall variable_free xs.
Proof.
  intros Hx. apply Forall_forall. intros a Ha.
  apply get_vars_nil_occurs. intros v Hv.
  apply (proj1 (get_vars_nil_occurs _) Hx v). by apply (occurs_arg v p xs a).
Qed.

Lemma variable_free_clause (h : term) (bs : list term) :
  variable_free (Clause h bs) → Forall variable_free (h :: bs).
Proof.
  intros Hx. apply Forall_forall. intros a Ha.
  apply get_vars_nil_occurs. intros v Hv.
  apply (proj1 (get_vars_nil_occurs _) Hx v).
  apply elem_of_cons in Ha as [-> | Ha];
    [by apply occurs_head | by apply (occurs_body v h bs a)].
Qed.

(** The two orders on terms without variables. *)
Lemma unifies_variable_free (x y : term) (b r : result) :
  variable_free x → variable_free y →
  unifies x y b r ↔ unifies y x b r.
Proof.
  intros Hx Hy. destruct b as [| e]; [by rewrite !unifies_Failure |].
  assert (Hxy : unifies x y (Env e) (if term_eqb x y then Env e else Failure)).
  { exists (S (depth x)). apply unify_ground_eq; [done | done | lia]. }
  assert (Hyx : unifies y x (Env e) (if term_eqb x y then Env e else Failure)).
  { exists (S (depth y)).
    rewrite unify_ground_eq by (done || lia).
    destruct (term_eqb_spec x y) as [-> | Hne];
      [by rewrite term_eqb_refl | by rewrite term_eqb_neq]. }
  split; intros H.
  - by rewrite (unifies_functional _ _ _ _ _ H Hxy).
  - by rewrite (unifies_functional _ _ _ _ _ H Hyx).
Qed.

(** *** Against a term without variables *)

Lemma unify_each_mirror_free (f : nat) :
  (∀ x y e r,
     variable_free_values e → variable_free x ∨ variable_free y →
     unify f x y (Env e) = Some r →
     unifies y x (Env e) r ∧ ∀ e', r = Env e' → variable_free_values e') →
  ∀ xs ys e r,
    variable_free_values e →
    Forall variable_free xs ∨ Forall variable_free ys →
    unify_each (unify f) xs ys (Env e) = Some r →
    (∃ k, unify_each (unify k) ys xs (Env e) = Some r) ∧
    ∀ e', r = Env e' → variable_free_values e'.
Proof.
  intros IH xs. induction xs as [| x xs IHxs]; intros [| y ys] e r He Hg;
    cbn [unify_each];
    try (intros [= <-]; split; [by exists 0 | by intros e' [= <-]]).
  assert (Hg1 : variable_free x ∨ variable_free y).
  { destruct Hg as [Hg | Hg]; apply Forall_cons in Hg as [? _]; tauto. }
  assert (Hg2 : Forall variable_free xs ∨ Forall variable_free ys).
  { destruct Hg as [Hg | Hg]; apply Forall_cons in Hg as [_ ?]; tauto. }
  destruct (unify f x y (Env e)) as [[| e1] |] eqn:E; [| | done].
  - intros [= <-]. destruct (IH _ _ _ _ He Hg1 E) as [[k1 H1] _].
    split; [| done]. exists (k1 `max` 0).
    by apply unify_each_cons with Failure.
  - intros Hrest. destruct (IH _ _ _ _ He Hg1 E) as [[k1 H1] He1].
    destruct (IHxs _ _ _ (He1 e1 eq_refl) Hg2 Hrest) as [[k2 H2] Hr].
    split; [| done]. exists (k1 `max` k2).
    by apply unify_each_cons with (Env e1).
Qed.

Lemma unify_mirror_free (fuel : nat) :
  ∀ x y e r,
    variable_free_values e → variable_free x ∨ variable_free y →
    unify fuel x y (Env e) = Some r →
    unifies y x (Env e) r ∧ ∀ e', r = Env e' → variable_free_values e'.
Proof.
  induction fuel as [| f IH]; intros x y e r He Hg H; [done |].
  destruct (term_eqb_spec x y) as [-> | Hne].
  { rewrite unify_eq in H. injection H as <-.
    split; [exists 1; by rewrite unify_eq | by intros e' [= <-]]. }
  assert (Hne' : y ≠ x) by congruence.
  destruct (is_var x) eqn:Hx, (is_var y) eqn:Hy.
  - destruct x, y; try done. by destruct Hg.
  - destruct x as [| v | |]; try done.
    assert (Hgy : variable_free y) by (by destruct Hg).
    split; [apply unifies_swap_var; [done | by exists (S f)] |].
    rewrite unify_neq in H by done.
    destruct (e !! v) as [bx |] eqn:Hv.
    + by apply (IH _ _ _ _ He (or_intror Hgy) H).
    + assert (Hb : bound y e = None) by (by destruct y).
      rewrite Hb in H. injection H as <-. intros e' [= <-] u t.
      rewrite lookup_insert_Some. intros [[_ <-] | [_ Hu]]; [done |].
      by apply (He u).
  - destruct y as [| w | |]; try done.
    rewrite unify_swap_var in H by done.
    split; [by exists f |]. apply (IH _ _ _ _ He) in H; [by destruct H | tauto].
  - rewrite unify_neq in H by done.
    destruct x as [a | | p xs | h bs], y as [b | | q ys | k cs]; try done;
      try (injection H as <-; split; [| done];
           exists 1; by rewrite unify_neq by done).
    + destruct (decide (p = q)) as [<- | Hpq].
      2: { rewrite bool_decide_eq_false_2 in H by done. injection H as <-.
           split; [| done]. exists 1. rewrite unify_neq by done.
           by rewrite bool_decide_eq_false_2 by congruence. }
      destruct (decide (length xs = length ys)) as [Hlen | Hlen].
      2: { rewrite bool_decide_eq_true_2, bool_decide_eq_false_2 in H by done.
           injection H as <-. split; [| done]. exists 1.
           rewrite unify_neq by done.
           by rewrite bool_decide_eq_true_2, bool_decide_eq_false_2
             by congruence. }
      rewrite !bool_decide_eq_true_2 in H by done. cbn [negb] in H.
      destruct (unify_each_mirror_free f IH xs ys e r He) as [[k Hk] Hr];
        [| done |].
      { destruct Hg as [Hg | Hg]; apply variable_free_args in Hg; tauto. }
      split; [| done]. exists (S k). rewrite unify_neq by done.
      by rewrite !bool_decide_eq_true_2 by congruence.
    + destruct (decide (length bs = length cs)) as [Hlen | Hlen].
      2: { rewrite bool_decide_eq_false_2 in H by done. injection H as <-.
           split; [| done]. exists 1. rewrite unify_neq by done.
           by rewrite bool_decide_eq_false_2 by congruence. }
      rewrite bool_decide_eq_true_2 in H by done. cbn [negb] in H.
      destruct (unify_each_mirror_free f IH (h :: bs) (k :: cs) e r He)
        as [[n Hn] Hr]; [| done |].
      { destruct Hg as [Hg | Hg]; apply variable_free_clause in Hg; tauto. }
      split; [| done]. exists (S n). rewrite unify_neq by done.
      by rewrite bool_decide_eq_true_2 by congruence.
Qed.

Lemma unifies_var_bound (v : string) (bx y : term) (e : env) (r : result) :
  e !! v = Some bx → Var v ≠ y →
  unifies (Var v) y (Env e) r ↔ unifies bx y (Env e) r.
Proof.
  intros Hv Hne. split.
  - intros [[| fuel] H]; [done |].
    rewrite unify_neq, Hv in H by done. by exists fuel.
  - intros [fuel H]. exists (S fuel). by rewrite unify_neq, Hv.
Qed.

Lemma unifies_var_unbound (w v : string) (bx : term) (e : env) (r : result) :
  e !! w = None → e !! v = Some bx →
  unifies (Var w) (Var v) (Env e) r ↔ unifies (Var w) bx (Env e) r.
Proof.
  intros Hw Hv. assert (Hne : Var w ≠ Var v) by congruence. split.
  - intros [[| fuel] H]; [done |].
    rewrite unify_neq, Hw in H by done. simpl in H. rewrite Hv in H.
    by exists fuel.
  - intros [fuel H]. exists (S fuel). rewrite unify_neq, Hw by done.
    simpl. by rewrite Hv.
Qed.

Lemma unifies_mirror_free (x y : term) (e : env) (r : result) :
  variable_free_values e →
  variable_free_or_bound e x ∨ variable_free_or_bound e y →
  unifies x y (Env e) r ↔ unifies y x (Env e) r.
Proof.
  intros He.
  assert (Hfree : ∀ x y r, variable_free x ∨ variable_free y →
                  unifies x y (Env e) r → unifies y x (Env e) r).
  { intros x' y' r' Hg [fuel H].
    by apply (unify_mirror_free fuel x' y' e r' He Hg). }
  assert (Hbound : ∀ v bx y r, e !! v = Some bx →
                   unifies (Var v) y (Env e) r ↔ unifies y (Var v) (Env e) r).
  { intros v bx y' r' Hv.
    pose proof (variable_free_not_var bx (He v bx Hv)) as Hbx.
    destruct (term_eqb_spec (Var v) y') as [<- | Hne]; [done |].
    destruct (is_var y') eqn:Hy;
      [| symmetry; by apply unifies_swap_var].
    destruct y' as [| w | |]; try done.
    assert (Hbxw : bx ≠ Var w) by (intros ->; done).
    rewrite (unifies_var_bound v bx) by done.
    rewrite (unifies_swap_var bx w) by done.
    destruct (e !! w) as [by' |] eqn:Hw.
    - pose proof (variable_free_not_var by' (He w by' Hw)) as Hby.
      assert (Hbyv : by' ≠ Var v) by (intros ->; done).
      assert (Hbxby : Var w ≠ bx) by congruence.
      rewrite (unifies_var_bound w by' bx) by done.
      rewrite (unifies_var_bound w by' (Var v)) by congruence.
      rewrite (unifies_swap_var by' v) by done.
      rewrite (unifies_var_bound v bx by') by congruence.
      apply unifies_variable_free; [by apply (He w) | by apply (He v)].
    - by rewrite (unifies_var_unbound w v bx). }
  intros [[Hx | (v & -> & [bx Hv])] | [Hy | (w & -> & [by' Hw])]].
  - split; apply Hfree; tauto.
  - by apply (Hbound v bx).
  - split; apply Hfree; tauto.
  - symmetry. by apply (Hbound w by').
Qed.

Lemma unifies_clash (x y : term) (e : env) :
  clash x y → unifies x y (Env e) Failure.
Proof.
  intros Hc. exists 1.
  assert (Hne : x ≠ y).
  { intros ->. destruct y as [a | v | p xs | h bs]; simpl in Hc;
      [done | done | by destruct Hc | done]. }
  rewrite unify_neq by done.
  destruct x as [a | v | p xs | h bs], y as [b | w | q ys | k cs];
    simpl in Hc; try done.
  - destruct (decide (p = q)) as [<- | Hpq];
      [| by rewrite bool_decide_eq_false_2 by done].
    destruct Hc as [Hc | Hc]; [done |].
    by rewrite bool_decide_eq_true_2, bool_decide_eq_false_2 by done.
  - by rewrite bool_decide_eq_false_2 by done.
Qed.

Lemma clash_sym (x y : term) : clash x y → clash y x.
Proof.
  destruct x as [a | v | p xs | h bs], y as [b | w | q ys | k cs]; simpl;
    try done; intuition congruence.
Qed.

(** *** Along the chains of two variables *)

Lemma ends_unbound (e : env) (t a : term) : ends e t a → bound a e = None.
Proof. by induction 1. Qed.

Lemma ends_functional (e : env) (t a b : term) :
  ends e t a → ends e t b → a = b.
Proof.
  intros Ha. revert b. induction Ha as [t Ht | v t a Hv _ IH]; intros b Hb.
  - inversion Hb as [| v' t' b' Hv']; subst; [done |].
    simpl in Ht. congruence.
  - inversion Hb as [t' Ht' | v' t' b' Hv' Hb']; subst.
    + simpl in Ht'. congruence.
    + apply IH. congruence.
Qed.

Lemma ends_not_var (e : env) (t : term) : is_var t = false → ends e t t.
Proof. intros Ht. apply ends_here. by destruct t. Qed.

(** Descending the chain of the first argument. *)
Lemma unifies_chain_left (e : env) (x a y : term) (r : result) :
  ends e x a → ¬ ends e y a →
  unifies a y (Env e) r → unifies x y (Env e) r.
Proof.
  intros Hx Hy. induction Hx as [t Ht | v t a Hv Hx IH]; [done |].
  intros H. apply (unifies_var_bound v t); [done | | by apply IH].
  intros <-. apply Hy. by apply ends_step with t.
Qed.

Lemma unifies_chain_left_term (e : env) (x a y : term) (r : result) :
  ends e x a → is_var y = false →
  unifies a y (Env e) r → unifies x y (Env e) r.
Proof.
  intros Hx Hy. induction Hx as [t Ht | v t a Hv Hx IH]; [done |].
  intros H. apply (unifies_var_bound v t); [done | | by apply IH].
  by intros <-.
Qed.

(** Descending the chain of the second argument, the first being an
    unbound variable. *)
Lemma unifies_chain_right (e : env) (u : string) (y b : term) (r : result) :
  ends e y b → e !! u = None →
  unifies (Var u) b (Env e) r → unifies (Var u) y (Env e) r.
Proof.
  intros Hy Hu. induction Hy as [t Ht | w t b Hw Hy IH]; [done |].
  intros H. apply (unifies_var_unbound u w t); [done | done | by apply IH].
Qed.

Lemma unifies_same_end (e : env) (x y a : term) :
  ends e x a → ends e y a → unifies x y (Env e) (Env e).
Proof.
  intros Hx. revert y. induction Hx as [a Ha | v t a Hv Hx IH]; intros y Hy.
  - destruct (is_var a) eqn:Hvar.
    + destruct a as [| u | |]; try done. simpl in Ha.
      apply (unifies_chain_right e u y (Var u)); [done | done |].
      exists 1. by rewrite unify_eq.
    + destruct (term_eqb_spec a y) as [<- | Hne];
        [exists 1; by rewrite unify_eq |].
      inversion Hy as [| w t b Hw Hy']; subst; [done |].
      apply unifies_swap_var; [done |].
      apply (unifies_chain_left_term e (Var w) a a); [done | done |].
      exists 1. by rewrite unify_eq.
  - destruct (term_eqb_spec (Var v) y) as [<- | Hne];
      [exists 1; by rewrite unify_eq |].
    apply (unifies_var_bound v t); [done | done | by apply IH].
Qed.

Lemma chain_outcome_mono (fuel fuel' : nat) (e : env) (a b : term)
    (r : result) :
  fuel ≤ fuel' → chain_outcome fuel e a b r → chain_outcome fuel' e a b r.
Proof.
  intros Hle [H | [H | [H | (Ha & Hb & Hne & f & Hf & H)]]].
  - by left.
  - right. by left.
  - right. right. by left.
  - right. right. right.
    split; [done |]. split; [done |]. split; [done |].
    exists f. split; [lia | done].
Qed.

Lemma unify_chain_left_term (e : env) (y b t : term) :
  ends e y b → is_var t = false →
  ∀ fuel r, unify fuel y t (Env e) = Some r →
            ∃ fuel', fuel' ≤ fuel ∧ unify fuel' b t (Env e) = Some r.
Proof.
  intros Hy Ht. induction Hy as [y Hy | w t' b Hw Hy IH]; intros fuel r H.
  - by exists fuel.
  - destruct fuel as [| f]; [done |].
    rewrite unify_neq, Hw in H by (by intros <-).
    destruct (IH f r H) as (f' & Hle & H'). exists f'. split; [lia | done].
Qed.

Lemma unify_chain_right (e : env) (u : string) (y b : term) :
  ends e y b → e !! u = None →
  ∀ fuel r, unify fuel (Var u) y (Env e) = Some r →
            (Var u = b ∧ r = Env e) ∨
            (Var u ≠ b ∧ r = Env (<[u := b]> e)).
Proof.
  intros Hy Hu. induction Hy as [y Hy | w t' b Hw Hy IH]; intros fuel r H;
    (destruct fuel as [| f]; [done |]).
  - destruct (term_eqb_spec (Var u) y) as [<- | Hne].
    + rewrite unify_eq in H. injection H as <-. by left.
    + rewrite unify_neq, Hu, Hy in H by done. injection H as <-. by right.
  - rewrite unify_neq, Hu in H by congruence. simpl in H. rewrite Hw in H.
    by apply (IH f).
Qed.

Lemma unify_chain_outcome (e : env) (x a : term) :
  ends e x a →
  ∀ y b fuel r,
    ends e y b → is_var y = true →
    unify fuel x y (Env e) = Some r → chain_outcome fuel e a b r.
Proof.
  induction 1 as [x Hx | v t a Hv Hx IH]; intros y b fuel r Hy Hvar H.
  - destruct (is_var x) eqn:Hxv.
    + destruct x as [| u | |]; try done. simpl in Hx.
      destruct (unify_chain_right e u y b Hy Hx fuel r H) as [[<- ->] | [? ->]].
      * by left.
      * right. left. by exists u.
    + destruct y as [| w | |]; try done.
      destruct fuel as [| f]; [done |].
      rewrite unify_swap_var in H by done.
      destruct (unify_chain_left_term e (Var w) b x Hy Hxv f r H)
        as (f' & Hle & H').
      destruct f' as [| f']; [done |].
      destruct (term_eqb_spec b x) as [-> | Hne].
      { rewrite unify_eq in H'. injection H' as <-. by left. }
      destruct (is_var b) eqn:Hbv.
      * destruct b as [| u | |]; try done.
        apply ends_unbound in Hy. simpl in Hy.
        rewrite unify_neq, Hy, Hx in H' by done. injection H' as <-.
        right. right. left. by exists u.
      * right. right. right.
        split; [done |]. split; [done |]. split; [congruence |].
        exists (S f'). split; [lia | done].
  - destruct fuel as [| f]; [done |].
    destruct (term_eqb_spec (Var v) y) as [<- | Hne].
    + rewrite unify_eq in H. injection H as <-. left. split; [| done].
      apply (ends_functional e (Var v)); [by apply ends_step with t | done].
    + rewrite unify_neq, Hv in H by done.
      apply chain_outcome_mono with f; [lia |]. by apply (IH y b).
Qed.

(** The converse: from the ends of the chains to the call, with the last
    case given as a returning call on the two ends. *)
Lemma unifies_chain_outcome (e : env) (x a y b : term) (r : result) :
  ends e x a → ends e y b → is_var y = true →
  (a = b ∧ r = Env e) ∨
  (∃ u, a = Var u ∧ a ≠ b ∧ r = Env (<[u := b]> e)) ∨
  (∃ u, is_var a = false ∧ b = Var u ∧ r = Env (<[u := a]> e)) ∨
  (is_var a = false ∧ is_var b = false ∧ a ≠ b ∧
   unifies b a (Env e) r) →
  unifies x y (Env e) r.
Proof.
  intros Hx Hy Hvar.
  pose proof (ends_unbound e x a Hx) as Ha.
  pose proof (ends_unbound e y b Hy) as Hb.
  intros [[<- ->] | [(u & -> & Hne & ->) | [(u & Hav & -> & ->) |
                     (Hav & Hbv & Hne & H)]]].
  - by apply unifies_same_end with a.
  - simpl in Ha.
    apply (unifies_chain_left e x (Var u)); [done | |].
    { intros Hy'. apply Hne. by apply (ends_functional e y). }
    apply (unifies_chain_right e u y b); [done | done |].
    exists 1. by rewrite unify_neq, Ha, Hb.
  - simpl in Hb. destruct y as [| w | |]; try done.
    apply (unifies_chain_left e x a); [done | |].
    { intros Hy'. pose proof (ends_functional e _ _ _ Hy Hy') as <-. done. }
    apply unifies_swap_var; [done |].
    apply (unifies_chain_left_term e (Var w) (Var u)); [done | done |].
    exists 1. rewrite unify_neq, Hb by (by intros <-).
    by rewrite Ha.
  - destruct y as [| w | |]; try done.
    apply (unifies_chain_left e x a); [done | |].
    { intros Hy'. apply Hne. by apply (ends_functional e (Var w)). }
    apply unifies_swap_var; [done |].
    by apply (unifies_chain_left_term e (Var w) b).
Qed.

(** Chains still end after a variable was bound to a term that is not a
    variable. *)
Lemma chains_end_insert (e : env) (u : string) (b : term) :
  chains_end e → e !! u = None → is_var b = false →
  chains_end (<[u := b]> e).
Proof.
  intros Hch Hu Hb.
  assert (Hends : ∀ t a, ends e t a → ∃ a', ends (<[u := b]> e) t a').
  { induction 1 as [t Ht | v t a Hv _ [a' IH]].
    - destruct (term_eqb_spec t (Var u)) as [-> | Hne].
      + exists b. apply ends_step with b; [by rewrite lookup_insert_eq |].
        by apply ends_not_var.
      + exists t. apply ends_here. destruct t as [| w | |]; try done.
        simpl in *. rewrite lookup_insert_ne by congruence. done.
    - exists a'. apply ends_step with t; [| done].
      rewrite lookup_insert_ne by congruence. done. }
  intros v. destruct (Hch v) as [a Ha]. by apply (Hends (Var v) a).
Qed.

Lemma binds_new_terms_split (e e1 e' : env) :
  e ⊆ e1 → e1 ⊆ e' → binds_new_terms e e' →
  binds_new_terms e e1 ∧ binds_new_terms e1 e'.
Proof.
  intros H1 H2 Hnew. split; intros v t Hv Ht.
  - apply (Hnew v t Hv). by apply (lookup_weaken e1 e').
  - apply (Hnew v t); [| done].
    destruct (e !! v) as [s |] eqn:Hs; [| done].
    apply (lookup_weaken e e1) in Hs; [congruence | done].
Qed.

Lemma unify_each_subseteq (fuel : nat) (xs ys : list term) (e e' : env) :
  unify_each (unify fuel) xs ys (Env e) = Some (Env e') → e ⊆ e'.
Proof.
  apply (unify_each_extends (unify fuel)). intros ????. apply unify_subseteq.
Qed.

Lemma unify_each_chains_end (f : nat) :
  (∀ x y e e',
     chains_end e → binds_new_terms e e' →
     unify f x y (Env e) = Some (Env e') → chains_end e') →
  ∀ xs ys e e',
    chains_end e → binds_new_terms e e' →
    unify_each (unify f) xs ys (Env e) = Some (Env e') → chains_end e'.
Proof.
  intros IH xs. induction xs as [| x xs IHxs]; intros [| y ys] e e' Hch Hnew;
    cbn [unify_each]; try (by intros [= <-]).
  destruct (unify f x y (Env e)) as [[| e1] |] eqn:E; try done.
  intros Hrest.
  destruct (binds_new_terms_split e e1 e') as [Hn1 Hn2];
    [by eapply unify_subseteq | by eapply unify_each_subseteq | done |].
  apply (IHxs ys e1 e'); [by apply (IH x y e e1) | done | done].
Qed.

Lemma unify_chains_end (fuel : nat) :
  ∀ x y e e',
    chains_end e → binds_new_terms e e' →
    unify fuel x y (Env e) = Some (Env e') → chains_end e'.
Proof.
  induction fuel as [| f IH]; intros x y e e' Hch Hnew H; [done |].
  destruct (term_eqb_spec x y) as [-> | Hne].
  { rewrite unify_eq in H. by injection H as <-. }
  rewrite unify_neq in H by done.
  destruct x as [a | v | p xs | h bs].
  - destruct y; try done. by apply (IH _ _ _ _ Hch Hnew H).
  - destruct (e !! v) as [bx |] eqn:Hv; [by apply (IH _ _ _ _ Hch Hnew H) |].
    destruct (bound y e) as [by' |] eqn:Hy;
      [by apply (IH _ _ _ _ Hch Hnew H) |].
    injection H as <-. apply chains_end_insert; [done | done |].
    apply (Hnew v y Hv). by rewrite lookup_insert_eq.
  - destruct y as [b | w | q ys | k cs]; try done;
      [by apply (IH _ _ _ _ Hch Hnew H) |].
    destruct (negb (bool_decide (p = q))); [done |].
    destruct (negb (bool_decide (length xs = length ys))); [done |].
    by apply (unify_each_chains_end f IH xs ys e e').
  - destruct y as [b | w | q ys | k cs]; try done;
      [by apply (IH _ _ _ _ Hch Hnew H) |].
    destruct (negb (bool_decide (length bs = length cs))); [done |].
    by apply (unify_each_chains_end f IH (h :: bs) (k :: cs) e e').
Qed.

Lemma unify_each_mirror (f : nat) :
  (∀ x y e e',
     chains_end e → binds_new_terms e e' →
     unify f x y (Env e) = Some (Env e') → unifies y x (Env e) (Env e')) →
  ∀ xs ys e e',
    chains_end e → binds_new_terms e e' →
    unify_each (unify f) xs ys (Env e) = Some (Env e') →
    ∃ k, unify_each (unify k) ys xs (Env e) = Some (Env e').
Proof.
  intros IH xs. induction xs as [| x xs IHxs]; intros [| y ys] e e' Hch Hnew;
    cbn [unify_each]; try (intros [= <-]; by exists 0).
  destruct (unify f x y (Env e)) as [[| e1] |] eqn:E; try done.
  intros Hrest.
  destruct (binds_new_terms_split e e1 e') as [Hn1 Hn2];
    [by eapply unify_subseteq | by eapply unify_each_subseteq | done |].
  destruct (IH _ _ _ _ Hch Hn1 E) as [k1 H1].
  destruct (IHxs ys e1 e') as [k2 H2];
    [by apply (unify_chains_end f x y e e1) | done | done |].
  exists (k1 `max` k2). by apply unify_each_cons with (Env e1).
Qed.

Lemma unify_mirror (fuel : nat) :
  ∀ x y e e',
    chains_end e → binds_new_terms e e' →
    unify fuel x y (Env e) = Some (Env e') →
    unifies y x (Env e) (Env e').
Proof.
  induction fuel as [fuel IH] using lt_wf_ind. intros x y e e' Hch Hnew H.
  destruct (term_eqb_spec x y) as [-> | Hne]; [by exists fuel |].
  assert (Hne' : y ≠ x) by congruence.
  destruct (is_var x) eqn:Hx, (is_var y) eqn:Hy.
  - destruct x as [| v | |], y as [| w | |]; try done.
    destruct (Hch v) as [a Ha], (Hch w) as [b Hb].
    apply (unifies_chain_outcome e (Var w) b (Var v) a); [done | done | done |].
    pose proof (ends_unbound e _ _ Ha) as Hau.
    destruct (unify_chain_outcome e (Var v) a Ha (Var w) b fuel _ Hb eq_refl H)
      as [[-> Hr] | [(u & -> & Hab & Hr) | [(u & Hav & -> & Hr) |
                     (Hav & Hbv & Hab & f & Hf & Hr)]]].
    + by left.
    + right. right. left. exists u. split; [| done].
      injection Hr as ->. apply (Hnew u b); [done |].
      by rewrite lookup_insert_eq.
    + right. left. exists u. split; [done |]. split; [| done].
      by intros <-.
    + right. right. right.
      split; [done |]. split; [done |]. split; [congruence |].
      by apply (IH f Hf b a e e').
  - destruct x as [| v | |]; try done.
    apply unifies_swap_var; [done | by exists fuel].
  - destruct y as [| w | |]; try done.
    apply unifies_swap_var; [done | by exists fuel].
  - destruct fuel as [| f]; [done |]. rewrite unify_neq in H by done.
    destruct x as [a | | p xs | h bs], y as [b | | q ys | k cs]; try done.
    + destruct (decide (p = q)) as [<- | Hpq];
        [| by rewrite bool_decide_eq_false_2 in H by done].
      destruct (decide (length xs = length ys)) as [Hlen | Hlen];
        [| by rewrite bool_decide_eq_true_2, bool_decide_eq_false_2 in H
             by done].
      rewrite !bool_decide_eq_true_2 in H by done. cbn [negb] in H.
      destruct (unify_each_mirror f (IH f ltac:(lia)) xs ys e e' Hch Hnew H)
        as [n Hn].
      exists (S n). rewrite unify_neq by done.
      by rewrite !bool_decide_eq_true_2 by congruence.
    + destruct (decide (length bs = length cs)) as [Hlen | Hlen];
        [| by rewrite bool_decide_eq_false_2 in H by done].
      rewrite bool_decide_eq_true_2 in H by done. cbn [negb] in H.
      destruct (unify_each_mirror f (IH f ltac:(lia)) (h :: bs) (k :: cs)
                  e e' Hch Hnew H) as [n Hn].
      exists (S n). rewrite unify_neq by done.
      by rewrite bool_decide_eq_true_2 by congruence.
Qed.

Lemma binds_terms_only_chains_end (e : env) :
  binds_terms_only e → chains_end e.
Proof.
  intros He v. destruct (e !! v) as [t |] eqn:Hv.
  - exists t. apply ends_step with t; [done |].
    apply ends_not_var. by apply (He v).
  - exists (Var v). by apply ends_here.
Qed.

(** *** Up to the direction of bindings between variables *)

Lemma ends_total (e : env) (t : term) : chains_end e → ∃ a, ends e t a.
Proof.
  intros Hch. destruct (is_var t) eqn:Ht.
  - destruct t as [| v | |]; first [done | apply Hch].
  - exists t. by apply ends_not_var.
Qed.

Lemma ends_term (e : env) (t a : term) :
  is_var t = false → ends e t a → a = t.
Proof. intros Ht H. by apply (ends_functional e t); [| apply ends_not_var]. Qed.

Lemma same_ends_term (e1 e2 : env) (t a1 a2 : term) :
  same_ends e1 e2 → ends e1 t a1 → ends e2 t a2 →
  is_var a1 = false ∨ is_var a2 = false → a1 = a2.
Proof.
  intros [H1 _] Ha1 Ha2 Hvar. destruct (is_var t) eqn:Ht.
  - destruct t as [| v | |]; try done. by apply (H1 v).
  - apply ends_term in Ha1, Ha2; try done. congruence.
Qed.

Lemma same_ends_var (e1 e2 : env) (t a1 a2 : term) :
  same_ends e1 e2 → ends e1 t a1 → ends e2 t a2 → is_var a1 = is_var a2.
Proof.
  intros Hs Ha1 Ha2.
  destruct (is_var a1) eqn:H1, (is_var a2) eqn:H2; try done.
  - assert (a1 = a2) by (apply (same_ends_term e1 e2 t); auto). congruence.
  - assert (a1 = a2) by (apply (same_ends_term e1 e2 t); auto). congruence.
Qed.

Lemma same_ends_terms (e1 e2 : env) (t s a1 b1 a2 b2 : term) :
  same_ends e1 e2 →
  ends e1 t a1 → ends e1 s b1 → ends e2 t a2 → ends e2 s b2 →
  a1 = b1 ↔ a2 = b2.
Proof.
  intros Hs Ha1 Hb1 Ha2 Hb2.
  destruct (is_var t) eqn:Ht, (is_var s) eqn:Hs'.
  - destruct t as [| v | |], s as [| w | |]; try done.
    by apply (proj2 Hs v w).
  - pose proof (ends_term _ _ _ Hs' Hb1) as ->.
    pose proof (ends_term _ _ _ Hs' Hb2) as ->.
    split; intros ->.
    + symmetry. apply (same_ends_term e1 e2 t); auto.
    + apply (same_ends_term e1 e2 t); auto.
  - pose proof (ends_term _ _ _ Ht Ha1) as ->.
    pose proof (ends_term _ _ _ Ht Ha2) as ->.
    split; intros <-.
    + apply (same_ends_term e1 e2 s); auto.
    + symmetry. apply (same_ends_term e1 e2 s); auto.
  - pose proof (ends_term _ _ _ Ht Ha1) as ->.
    pose proof (ends_term _ _ _ Ht Ha2) as ->.
    pose proof (ends_term _ _ _ Hs' Hb1) as ->.
    by pose proof (ends_term _ _ _ Hs' Hb2) as ->.
Qed.

Lemma same_bindings_refl (e : env) : chains_end e → same_bindings e e.
Proof.
  intros Hch. split; [done |]. split; [done |]. split.
  - intros v a1 a2 H1 H2 _. by apply (ends_functional e (Var v)).
  - intros v w a1 b1 a2 b2 Ha1 Hb1 Ha2 Hb2.
    pose proof (ends_functional _ _ _ _ Ha1 Ha2) as ->.
    by pose proof (ends_functional _ _ _ _ Hb1 Hb2) as ->.
Qed.

(** The end of a chain after the unbound variable [u] was bound to [c]. *)
Lemma ends_insert (e : env) (u : string) (c t a : term) :
  e !! u = None → bound c e = None → c ≠ Var u →
  ends e t a →
  ends (<[u := c]> e) t (if term_eqb a (Var u) then c else a).
Proof.
  intros Hu Hc Hcu.
  assert (Hc' : bound c (<[u := c]> e) = None).
  { destruct c as [| w | |]; try done. simpl in *.
    rewrite lookup_insert_ne by congruence. done. }
  induction 1 as [t Ht | v t a Hv _ IH].
  - destruct (term_eqb_spec t (Var u)) as [-> | Hne].
    + apply ends_step with c; [by rewrite lookup_insert_eq |].
      by apply ends_here.
    + apply ends_here. destruct t as [| w | |]; try done.
      simpl in *. rewrite lookup_insert_ne by congruence. done.
  - apply ends_step with t; [| done].
    rewrite lookup_insert_ne by congruence. done.
Qed.

Lemma chains_end_insert_end (e : env) (u : string) (c : term) :
  chains_end e → e !! u = None → bound c e = None → c ≠ Var u →
  chains_end (<[u := c]> e).
Proof.
  intros Hch Hu Hc Hcu v. destruct (Hch v) as [a Ha].
  eexists. by apply ends_insert.
Qed.

Lemma ends_insert_inv (e : env) (u : string) (c t a' : term) :
  chains_end e → e !! u = None → bound c e = None → c ≠ Var u →
  ends (<[u := c]> e) t a' →
  ∃ a, ends e t a ∧ a' = if term_eqb a (Var u) then c else a.
Proof.
  intros Hch Hu Hc Hcu Ha'. destruct (ends_total e t Hch) as [a Ha].
  exists a. split; [done |].
  apply (ends_functional (<[u := c]> e) t); [done | by apply ends_insert].
Qed.

(** Binding, in each dictionary, the end of the chain of [t] to the end of
    the chain of [s]. *)
Lemma same_bindings_insert (e1 e2 : env) (t s : term) (u1 u2 : string)
    (c1 c2 : term) :
  same_bindings e1 e2 →
  ends e1 t (Var u1) → ends e2 t (Var u2) →
  ends e1 s c1 → ends e2 s c2 →
  c1 ≠ Var u1 →
  same_bindings (<[u1 := c1]> e1) (<[u2 := c2]> e2).
Proof.
  intros (Hch1 & Hch2 & Hs) Ht1 Ht2 Hs1 Hs2 Hne1.
  pose proof (ends_unbound _ _ _ Ht1) as Hu1. simpl in Hu1.
  pose proof (ends_unbound _ _ _ Ht2) as Hu2. simpl in Hu2.
  pose proof (ends_unbound _ _ _ Hs1) as Hc1.
  pose proof (ends_unbound _ _ _ Hs2) as Hc2.
  assert (Hne2 : c2 ≠ Var u2).
  { intros ->. apply Hne1.
    by apply (same_ends_terms e1 e2 s t c1 (Var u1) (Var u2) (Var u2)). }
  assert (Hkey : ∀ r a1 a2, ends e1 r a1 → ends e2 r a2 →
                            term_eqb a1 (Var u1) = term_eqb a2 (Var u2)).
  { intros r a1 a2 Ha1 Ha2.
    pose proof (same_ends_terms e1 e2 r t a1 _ a2 _ Hs Ha1 Ht1 Ha2 Ht2) as H.
    destruct (term_eqb_spec a1 (Var u1)), (term_eqb_spec a2 (Var u2));
      tauto. }
  split; [by apply chains_end_insert_end |].
  split; [by apply chains_end_insert_end |]. split.
  - intros v a1' a2' Ha1' Ha2' Hvar.
    apply ends_insert_inv in Ha1' as (a1 & Ha1 & ->); try done.
    apply ends_insert_inv in Ha2' as (a2 & Ha2 & ->); try done.
    rewrite (Hkey _ _ _ Ha1 Ha2) in *.
    destruct (term_eqb a2 (Var u2)).
    + by apply (same_ends_term e1 e2 s).
    + by apply (same_ends_term e1 e2 (Var v)).
  - intros v w a1' b1' a2' b2' Ha1' Hb1' Ha2' Hb2'.
    apply ends_insert_inv in Ha1' as (a1 & Ha1 & ->); try done.
    apply ends_insert_inv in Ha2' as (a2 & Ha2 & ->); try done.
    apply ends_insert_inv in Hb1' as (b1 & Hb1 & ->); try done.
    apply ends_insert_inv in Hb2' as (b2 & Hb2 & ->); try done.
    rewrite (Hkey _ _ _ Ha1 Ha2), (Hkey _ _ _ Hb1 Hb2).
    destruct (term_eqb a2 (Var u2)), (term_eqb b2 (Var u2)).
    + done.
    + by apply (same_ends_terms e1 e2 s (Var w)).
    + by apply (same_ends_terms e1 e2 (Var v) s).
    + by apply (same_ends_terms e1 e2 (Var v) (Var w)).
Qed.

(** Binding the end of [t] to the end of [s] in the one, and the end of [s]
    to the end of [t] in the other, both ends being variables. *)
Lemma same_bindings_insert_flip (e1 e2 : env) (t s : term)
    (u1 u2 w1 w2 : string) :
  same_bindings e1 e2 →
  ends e1 t (Var u1) → ends e2 t (Var u2) →
  ends e1 s (Var w1) → ends e2 s (Var w2) →
  u1 ≠ w1 →
  same_bindings (<[u1 := Var w1]> e1) (<[w2 := Var u2]> e2).
Proof.
  intros (Hch1 & Hch2 & Hs) Ht1 Ht2 Hs1 Hs2 Hne1.
  pose proof (ends_unbound _ _ _ Ht1) as Hu1. simpl in Hu1.
  pose proof (ends_unbound _ _ _ Ht2) as Hu2. simpl in Hu2.
  pose proof (ends_unbound _ _ _ Hs1) as Hw1. simpl in Hw1.
  pose proof (ends_unbound _ _ _ Hs2) as Hw2. simpl in Hw2.
  assert (Hne2 : u2 ≠ w2).
  { intros ->. apply Hne1.
    assert (Var u1 = Var w1) as [= ->]; [| done].
    by apply (same_ends_terms e1 e2 t s _ _ (Var w2) (Var w2)). }
  assert (HkeyU : ∀ r a1 a2, ends e1 r a1 → ends e2 r a2 →
                             term_eqb a1 (Var u1) = term_eqb a2 (Var u2)).
  { intros r a1 a2 Ha1 Ha2.
    pose proof (same_ends_terms e1 e2 r t a1 _ a2 _ Hs Ha1 Ht1 Ha2 Ht2) as H.
    destruct (term_eqb_spec a1 (Var u1)), (term_eqb_spec a2 (Var u2));
      tauto. }
  assert (HkeyW : ∀ r a1 a2, ends e1 r a1 → ends e2 r a2 →
                             term_eqb a1 (Var w1) = term_eqb a2 (Var w2)).
  { intros r a1 a2 Ha1 Ha2.
    pose proof (same_ends_terms e1 e2 r s a1 _ a2 _ Hs Ha1 Hs1 Ha2 Hs2) as H.
    destruct (term_eqb_spec a1 (Var w1)), (term_eqb_spec a2 (Var w2));
      tauto. }
  assert (Hend : ∀ r a1' a2',
            ends (<[u1 := Var w1]> e1) r a1' →
            ends (<[w2 := Var u2]> e2) r a2' →
            ∃ a1 a2, ends e1 r a1 ∧ ends e2 r a2 ∧
              ((term_eqb a2 (Var u2) || term_eqb a2 (Var w2) = true ∧
                a1' = Var w1 ∧ a2' = Var u2) ∨
               (term_eqb a2 (Var u2) = false ∧ term_eqb a2 (Var w2) = false ∧
                a1 ≠ Var u1 ∧ a1 ≠ Var w1 ∧ a1' = a1 ∧ a2' = a2))).
  { intros r a1' a2' Ha1' Ha2'.
    apply ends_insert_inv in Ha1' as (a1 & Ha1 & ->); try done;
      [| congruence].
    apply ends_insert_inv in Ha2' as (a2 & Ha2 & ->); try done;
      [| congruence].
    exists a1, a2. split; [done |]. split; [done |].
    pose proof (HkeyU _ _ _ Ha1 Ha2) as HU.
    pose proof (HkeyW _ _ _ Ha1 Ha2) as HW.
    destruct (term_eqb_spec a2 (Var u2)) as [-> | Hn2].
    - left. split; [done |].
      rewrite HU. split; [done |].
      by rewrite term_eqb_neq by congruence.
    - destruct (term_eqb_spec a2 (Var w2)) as [-> | Hn2'].
      + left. split; [done |]. rewrite HU. split; [| done].
        destruct (term_eqb_spec a1 (Var w1)) as [-> | ?]; done.
      + right. rewrite HU.
        destruct (term_eqb_spec a1 (Var u1)) as [-> | ?]; [done |].
        destruct (term_eqb_spec a1 (Var w1)) as [-> | ?]; done. }
  split; [apply chains_end_insert_end; try done; congruence |].
  split; [apply chains_end_insert_end; try done; congruence |]. split.
  - intros v a1' a2' Ha1' Ha2' Hvar.
    destruct (Hend _ _ _ Ha1' Ha2')
      as (a1 & a2 & Ha1 & Ha2 & [(_ & -> & ->) | (_ & _ & _ & _ & -> & ->)]).
    + by destruct Hvar.
    + by apply (same_ends_term e1 e2 (Var v)).
  - intros v w a1' b1' a2' b2' Ha1' Hb1' Ha2' Hb2'.
    destruct (Hend _ _ _ Ha1' Ha2')
      as (a1 & a2 & Ha1 & Ha2 &
          [(_ & -> & ->) | (Hau & Haw & Hau1 & Haw1 & -> & ->)]);
    destruct (Hend _ _ _ Hb1' Hb2')
      as (b1 & b2 & Hb1 & Hb2 &
          [(_ & -> & ->) | (Hbu & Hbw & Hbu1 & Hbw1 & -> & ->)]).
    + done.
    + split; intros <-; [done |].
      by rewrite term_eqb_refl in Hbu.
    + split; intros ->; [done |].
      by rewrite term_eqb_refl in Hau.
    + by apply (same_ends_terms e1 e2 (Var v) (Var w)).
Qed.


Lemma not_var_cases (x y : term) :
  is_var x = false → is_var y = false → x ≠ y →
  clash x y ∨
  (∃ p xs ys, x = Relation p xs ∧ y = Relation p ys ∧
              length xs = length ys) ∨
  (∃ h bs k cs, x = Clause h bs ∧ y = Clause k cs ∧
                length bs = length cs).
Proof.
  intros Hx Hy Hne.
  destruct x as [a | | p xs | h bs], y as [b | | q ys | k cs]; try done;
    try (by left).
  - left. simpl. congruence.
  - destruct (decide (p = q)) as [<- | Hpq]; [| left; by left].
    destruct (decide (length xs = length ys)) as [Hlen | Hlen];
      [| left; by right].
    right. left. by exists p, xs, ys.
  - destruct (decide (length bs = length cs)) as [Hlen | Hlen]; [| by left].
    right. right. by exists h, bs, k, cs.
Qed.

Lemma unify_each_sim (f : nat) :
  (∀ x y e1 e2 r1,
     same_bindings e1 e2 → unify f x y (Env e1) = Some r1 →
     (∃ r2, unifies x y (Env e2) r2 ∧ same_result r1 r2) ∧
     (∃ r2, unifies y x (Env e2) r2 ∧ same_result r1 r2)) →
  ∀ xs ys e1 e2 r1,
    same_bindings e1 e2 →
    unify_each (unify f) xs ys (Env e1) = Some r1 →
    (∃ k r2, unify_each (unify k) xs ys (Env e2) = Some r2 ∧
             same_result r1 r2) ∧
    (∃ k r2, unify_each (unify k) ys xs (Env e2) = Some r2 ∧
             same_result r1 r2).
Proof.
  intros IH xs. induction xs as [| x xs IHxs]; intros [| y ys] e1 e2 r1 Hs;
    cbn [unify_each];
    try (intros [= <-]; split; exists 0, (Env e2); by split).
  destruct (unify f x y (Env e1)) as [[| e1'] |] eqn:E; [| | done].
  - intros [= <-].
    destruct (IH _ _ _ _ _ Hs E)
      as [(r2 & [k H2] & Hr2) (r2' & [k' H2'] & Hr2')].
    destruct r2; [| done]. destruct r2'; [| done].
    split; [exists (k `max` 0), Failure | exists (k' `max` 0), Failure];
      (split; [| done]); by apply unify_each_cons with Failure.
  - intros Hrest.
    destruct (IH _ _ _ _ _ Hs E)
      as [(r2 & [k H2] & Hr2) (r2' & [k' H2'] & Hr2')].
    destruct r2 as [| e2a]; [done |]. destruct r2' as [| e2b]; [done |].
    simpl in Hr2, Hr2'.
    destruct (IHxs ys e1' e2a r1 Hr2 Hrest) as [(n & r & Hn & Hr) _].
    destruct (IHxs ys e1' e2b r1 Hr2' Hrest) as [_ (n' & r' & Hn' & Hr')].
    split.
    + exists (k `max` n), r. split; [| done].
      by apply unify_each_cons with (Env e2a).
    + exists (k' `max` n'), r'. split; [| done].
      by apply unify_each_cons with (Env e2b).
Qed.

(** From what a call has done on the ends of the two chains in the one
    dictionary to the calls in both orders in the other. *)
Lemma same_result_outcome (e1 e2 : env) (x y a1 b1 a2 b2 : term)
    (r1 : result) :
  same_bindings e1 e2 →
  ends e1 x a1 → ends e1 y b1 → ends e2 x a2 → ends e2 y b2 →
  (a1 = b1 ∧ r1 = Env e1) ∨
  (∃ u, a1 = Var u ∧ a1 ≠ b1 ∧ r1 = Env (<[u := b1]> e1)) ∨
  (∃ u, is_var a1 = false ∧ b1 = Var u ∧ r1 = Env (<[u := a1]> e1)) ∨
  (is_var a1 = false ∧ is_var b1 = false ∧ a1 ≠ b1 ∧
   (∃ r2, unifies b1 a1 (Env e2) r2 ∧ same_result r1 r2) ∧
   (∃ r2, unifies a1 b1 (Env e2) r2 ∧ same_result r1 r2)) →
  (is_var y = true → ∃ r2, unifies x y (Env e2) r2 ∧ same_result r1 r2) ∧
  (is_var x = true → ∃ r2, unifies y x (Env e2) r2 ∧ same_result r1 r2).
Proof.
  intros Hs Ha1 Hb1 Ha2 Hb2 Hout.
  pose proof Hs as (Hch1 & Hch2 & Hends).
  pose proof (same_ends_terms e1 e2 x y a1 b1 a2 b2 Hends Ha1 Hb1 Ha2 Hb2)
    as Heq.
  pose proof (same_ends_var e1 e2 x a1 a2 Hends Ha1 Ha2) as Hva.
  pose proof (same_ends_var e1 e2 y b1 b2 Hends Hb1 Hb2) as Hvb.
  destruct Hout as [[Hab ->] | [(u1 & -> & Hab & ->) |
                   [(u1 & Hav & -> & ->) | (Hav & Hbv & Hab & Hba & Hab')]]].
  - apply Heq in Hab as <-. split; intros Hvar; exists (Env e2);
      (split; [| done]).
    + apply (unifies_chain_outcome e2 x a2 y a2); auto.
    + apply (unifies_chain_outcome e2 y a2 x a2); auto.
  - destruct a2 as [| u2 | |]; try done.
    assert (Hab2 : Var u2 ≠ b2) by (rewrite <- Heq; done).
    split; intros Hvar.
    + exists (Env (<[u2 := b2]> e2)). split.
      * apply (unifies_chain_outcome e2 x (Var u2) y b2); try done.
        right. left. by exists u2.
      * apply (same_bindings_insert e1 e2 x y); try done; congruence.
    + destruct (is_var b1) eqn:Hb1v.
      * destruct b1 as [| w1 | |], b2 as [| w2 | |]; try done.
        exists (Env (<[w2 := Var u2]> e2)). split.
        -- apply (unifies_chain_outcome e2 y (Var w2) x (Var u2)); try done.
           right. left. exists w2. split; [done |]. split; [congruence | done].
        -- apply (same_bindings_insert_flip e1 e2 x y); try done; congruence.
      * assert (b1 = b2) as <- by (apply (same_ends_term e1 e2 y); auto).
        exists (Env (<[u2 := b1]> e2)). split.
        -- apply (unifies_chain_outcome e2 y b1 x (Var u2)); try done.
           right. right. left. by exists u2.
        -- apply (same_bindings_insert e1 e2 x y); try done; congruence.
  - destruct b2 as [| u2 | |]; try done.
    assert (a1 = a2) as <- by (apply (same_ends_term e1 e2 x); auto).
    split; intros Hvar; exists (Env (<[u2 := a1]> e2)); split.
    + apply (unifies_chain_outcome e2 x a1 y (Var u2)); try done.
      right. right. left. by exists u2.
    + apply (same_bindings_insert e1 e2 y x); try done; by intros ->.
    + apply (unifies_chain_outcome e2 y (Var u2) x a1); try done.
      right. left. exists u2. split; [done |]. split; [by intros <- | done].
    + apply (same_bindings_insert e1 e2 y x); try done; by intros ->.
  - assert (a1 = a2) as <- by (apply (same_ends_term e1 e2 x); auto).
    assert (b1 = b2) as <- by (apply (same_ends_term e1 e2 y); auto).
    destruct Hba as (r2 & Hr2 & Hsim), Hab' as (r2' & Hr2' & Hsim').
    split; intros Hvar.
    + exists r2. split; [| done].
      apply (unifies_chain_outcome e2 x a1 y b1); try done.
      right. right. right. done.
    + exists r2'. split; [| done].
      apply (unifies_chain_outcome e2 y b1 x a1); try done.
      right. right. right. split; [done |]. split; [done |].
      split; [congruence | done].
Qed.

Lemma unify_sim (fuel : nat) :
  ∀ x y e1 e2 r1,
    same_bindings e1 e2 → unify fuel x y (Env e1) = Some r1 →
    (∃ r2, unifies x y (Env e2) r2 ∧ same_result r1 r2) ∧
    (∃ r2, unifies y x (Env e2) r2 ∧ same_result r1 r2).
Proof.
  induction fuel as [fuel IH] using lt_wf_ind. intros x y e1 e2 r1 Hs H.
  destruct fuel as [| f]; [done |].
  destruct (term_eqb_spec x y) as [-> | Hne].
  { rewrite unify_eq in H. injection H as <-.
    split; exists (Env e2); (split; [exists 1; by rewrite unify_eq | done]). }
  assert (Hne' : y ≠ x) by congruence.
  pose proof Hs as (Hch1 & Hch2 & Hends).
  destruct (ends_total e1 x Hch1) as [a1 Ha1].
  destruct (ends_total e1 y Hch1) as [b1 Hb1].
  destruct (ends_total e2 x Hch2) as [a2 Ha2].
  destruct (ends_total e2 y Hch2) as [b2 Hb2].
  destruct (is_var y) eqn:Hy.
  - destruct (is_var x) eqn:Hx.
    + apply (same_result_outcome e1 e2 x y a1 b1 a2 b2 r1) in Hs as [H1 H2];
        try done; [by split; [apply H1 | apply H2] |].
      destruct (unify_chain_outcome e1 x a1 Ha1 y b1 (S f) r1 Hb1 Hy H)
        as [? | [? | [? | (Hav & Hbv & Hab & f' & Hf' & Hr)]]]; auto.
      right. right. right. split; [done |]. split; [done |].
      split; [done |]. by apply (IH f' Hf' b1 a1 e1 e2 r1).
    + destruct y as [| w | |]; try done.
      rewrite unify_swap_var in H by done.
      destruct (IH f ltac:(lia) _ _ _ _ _ Hs H) as [H1 H2]. by split.
  - destruct (is_var x) eqn:Hx.
    + destruct x as [| v | |]; try done.
      pose proof (ends_term e1 y b1 Hy Hb1) as ->.
      assert (Hgoal : ∃ r2, unifies y (Var v) (Env e2) r2 ∧ same_result r1 r2).
      { apply (same_result_outcome e1 e2 (Var v) y a1 y a2 b2 r1) in Hs
          as [_ H2]; try done; [by apply H2 |].
        rewrite unify_neq in H by done.
        assert (Hby : bound y e1 = None) by (by destruct y).
        inversion Ha1 as [t Ht | v' t a Hv Ht]; subst.
        - simpl in Ht. rewrite Ht, Hby in H. injection H as <-.
          right. left. by exists v.
        - rewrite Hv in H.
          destruct (unify_chain_left_term e1 t a1 y Ht Hy f r1 H)
            as (f' & Hle & H').
          destruct f' as [| f']; [done |].
          destruct (term_eqb_spec a1 y) as [-> | Hay].
          { rewrite unify_eq in H'. injection H' as <-. by left. }
          pose proof (ends_unbound _ _ _ Ht) as Hau.
          destruct (is_var a1) eqn:Hav.
          + destruct a1 as [| u | |]; try done. simpl in Hau.
            rewrite unify_neq, Hau, Hby in H' by done. injection H' as <-.
            right. left. by exists u.
          + right. right. right. split; [done |]. split; [done |].
            split; [done |].
            destruct (IH (S f') ltac:(lia) a1 y e1 e2 r1) as [H1 H2];
              [by split | done | by split]. }
      split; [| done].
      destruct Hgoal as (r2 & Hr2 & Hsim). exists r2. split; [| done].
      by apply unifies_swap_var.
    + destruct (not_var_cases x y Hx Hy Hne)
        as [Hc | [(p & xs & ys & -> & -> & Hlen) |
                  (h & bs & k & cs & -> & -> & Hlen)]].
      * assert (r1 = Failure) as ->.
        { apply (unifies_functional x y (Env e1)); [by exists (S f) |].
          by apply unifies_clash. }
        split; exists Failure; (split; [| done]); apply unifies_clash;
          [done | by apply clash_sym].
      * rewrite unify_neq in H by done.
        rewrite !bool_decide_eq_true_2 in H by done. cbn [negb] in H.
        destruct (unify_each_sim f (IH f ltac:(lia)) xs ys e1 e2 r1 Hs H)
          as [(n & r2 & Hn & Hr2) (n' & r2' & Hn' & Hr2')].
        split; [exists r2 | exists r2']; (split; [| done]);
          [exists (S n) | exists (S n')]; rewrite unify_neq by done;
          by rewrite !bool_decide_eq_true_2 by done.
      * rewrite unify_neq in H by done.
        rewrite bool_decide_eq_true_2 in H by done. cbn [negb] in H.
        destruct (unify_each_sim f (IH f ltac:(lia)) (h :: bs) (k :: cs)
                    e1 e2 r1 Hs H)
          as [(n & r2 & Hn & Hr2) (n' & r2' & Hn' & Hr2')].
        split; [exists r2 | exists r2']; (split; [| done]);
          [exists (S n) | exists (S n')]; rewrite unify_neq by done;
          by rewrite bool_decide_eq_true_2 by done.
Qed.

(** C2, amended.  [unify(x, y, env)] and [unify(y, x, env)] have the same
    result (both fail, or both return the same mapping, or neither returns)
    - when [x] and [y] are equal or exactly one of them is a variable;
    - when neither [x] nor [y] contains a variable;
    - when no value of [env] contains a variable and [x] or [y] is without
      variables or is a variable bound in [env].
    Both calls fail when [x] and [y] are not variables and differ in their
    class, or are atoms with different names, relations with different
    predicates or arities, or clauses with bodies of different lengths.
    Whenever one of the calls succeeds with a mapping that binds no variable
    to a variable, the other succeeds with the same mapping; and the same
    holds when [env] has no cyclic chain of variables and the mapping
    returned binds no variable that was unbound in [env] to a variable.  On
    two distinct variables that are both unbound in [env] the two calls
    succeed with bindings in opposite directions: [x ↦ y] for the first and
    [y ↦ x] for the second.  That direction is all that depends on the
    order: when [env] has no cyclic chain of variables, the one call fails
    exactly when the other does and succeeds exactly when the other does,
    and the two mappings returned resolve every variable alike. *)
Theorem unify_symmetry :
  (∀ (x y : term) (b r : result),
     x = y ∨ is_var x ≠ is_var y →
     unifies x y b r ↔ unifies y x b r) ∧
  (∀ (v w : string) (e : env),
     v ≠ w → e !! v = None → e !! w = None →
     unifies (Var v) (Var w) (Env e) (Env (<[v := Var w]> e)) ∧
     unifies (Var w) (Var v) (Env e) (Env (<[w := Var v]> e)) ∧
     <[v := Var w]> e ≠ <[w := Var v]> e) ∧
  (∀ (x y : term) (b r : result),
     variable_free x → variable_free y →
     unifies x y b r ↔ unifies y x b r) ∧
  (∀ (x y : term) (e : env) (r : result),
     variable_free_values e →
     variable_free_or_bound e x ∨ variable_free_or_bound e y →
     unifies x y (Env e) r ↔ unifies y x (Env e) r) ∧
  (∀ (x y : term) (e : env),
     clash x y →
     unifies x y (Env e) Failure ∧ unifies y x (Env e) Failure) ∧
  (∀ (x y : term) (e e' : env),
     binds_terms_only e' →
     unifies x y (Env e) (Env e') ↔ unifies y x (Env e) (Env e')) ∧
  (∀ (x y : term) (e e' : env),
     chains_end e → binds_new_terms e e' →
     unifies x y (Env e) (Env e') ↔ unifies y x (Env e) (Env e')) ∧
  (∀ (x y : term) (e : env),
     chains_end e →
     (unifies x y (Env e) Failure ↔ unifies y x (Env e) Failure) ∧
     ((∃ e1, unifies x y (Env e) (Env e1)) ↔
      (∃ e2, unifies y x (Env e) (Env e2))) ∧
     (∀ e1 e2,
        unifies x y (Env e) (Env e1) → unifies y x (Env e) (Env e2) →
        same_bindings e1 e2)).
Proof.
  split; [| split; [| split; [| split; [| split; [| split; [| split]]]]]].
  - intros x y b r [-> | Hvar]; [done |].
    destruct x as [a | v | p xs | h bs], y as [c | w | q ys | k cs];
      simpl in Hvar; try done;
      first [ by apply unifies_swap_var
            | by symmetry; apply unifies_swap_var ].
  - intros v w e Hvw Hv Hw. split; [| split].
    + exists 1. simpl.
      rewrite bool_decide_eq_false_2 by done. by rewrite Hv, Hw.
    + exists 1. simpl.
      rewrite bool_decide_eq_false_2 by done. by rewrite Hw, Hv.
    + intros Heq. apply (f_equal (fun m : env => m !! w)) in Heq.
      rewrite lookup_insert_ne, lookup_insert_eq in Heq by done.
      congruence.
  - apply unifies_variable_free.
  - apply unifies_mirror_free.
  - intros x y e Hc. split; apply unifies_clash; [done | by apply clash_sym].
  - intros x y e e' He'.
    assert (Hgo : ∀ x y, unifies x y (Env e) (Env e') →
                         unifies y x (Env e) (Env e')).
    { intros x' y' [fuel H].
      assert (Hsub : e ⊆ e') by (by eapply unify_subseteq).
      apply (unify_mirror fuel); [| | done].
      - apply binds_terms_only_chains_end. intros v t Hv.
        apply (He' v). by apply (lookup_weaken e e').
      - intros v t _. apply He'. }
    split; apply Hgo.
  - intros x y e e' Hch Hnew.
    split; intros [fuel H]; by apply (unify_mirror fuel).
  - intros x y e Hch.
    assert (Hgo : ∀ x y r1, unifies x y (Env e) r1 →
                  ∃ r2, unifies y x (Env e) r2 ∧ same_result r1 r2).
    { intros x' y' r1 [fuel H].
      by apply (unify_sim fuel x' y' e e r1 (same_bindings_refl e Hch)). }
    split; [| split].
    + split; intros H; apply Hgo in H as ([| e2] & H & Hr); done.
    + split; intros [e1 H]; apply Hgo in H as ([| e2] & H & Hr); try done;
        by exists e2.
    + intros e1 e2 H1 H2. apply Hgo in H1 as (r2 & H & Hr).
      by rewrite (unifies_functional _ _ _ _ _ H H2) in Hr.
Qed.

(** The first part on [a] and [X]; the second on [X] and [Y]; the third on
    [f(a)] and [f(b)]; the fourth on [p(X, b)] and [p(a, c)], which fail in
    both orders; the fifth on [a] and [f(X)]; the sixth on [p(X, b)] and
    [p(a, Y)], which give [{X: a, Y: b}] in both orders; the last on [X] and
    [f(Z)] under [{X: Y}], which give [{X: Y, Y: f(Z)}] in both orders;
    the eighth on [p(X, a)] and [p(Y, b)], which fail in both orders. *)
Lemma unify_symmetry_witness :
  (unifies (Atom "a") (Var "X") (Env ∅) (Env {["X" := Atom "a"]}) ↔
   unifies (Var "X") (Atom "a") (Env ∅) (Env {["X" := Atom "a"]})) ∧
  (unifies (Var "X") (Var "Y") (Env ∅) (Env (<["X" := Var "Y"]> ∅)) ∧
   unifies (Var "Y") (Var "X") (Env ∅) (Env (<["Y" := Var "X"]> ∅)) ∧
   <["X" := Var "Y"]> (∅ : env) ≠ <["Y" := Var "X"]> ∅) ∧
  unifies (Relation "f" [Atom "b"]) (Relation "f" [Atom "a"]) (Env ∅)
          Failure ∧
  unifies (Relation "p" [Atom "a"; Atom "c"])
          (Relation "p" [Var "X"; Atom "b"]) (Env ∅) Failure ∧
  (unifies (Atom "a") (Relation "f" [Var "X"]) (Env ∅) Failure ∧
   unifies (Relation "f" [Var "X"]) (Atom "a") (Env ∅) Failure) ∧
  unifies (Relation "p" [Atom "a"; Var "Y"])
          (Relation "p" [Var "X"; Atom "b"]) (Env ∅)
          (Env (<["Y" := Atom "b"]> (<["X" := Atom "a"]> ∅))) ∧
  unifies (Relation "f" [Var "Z"]) (Var "X") (Env {["X" := Var "Y"]})
          (Env (<["Y" := Relation "f" [Var "Z"]]> {["X" := Var "Y"]})) ∧
  unifies (Relation "p" [Var "Y"; Atom "b"])
          (Relation "p" [Var "X"; Atom "a"]) (Env ∅) Failure.
Proof.
  split; [| split; [| split; [| split; [| split; [| split; [| split]]]]]].
  - apply (proj1 unify_symmetry). right. simpl. discriminate.
  - apply (proj1 (proj2 unify_symmetry));
      [discriminate | reflexivity | reflexivity].
  - apply (proj1 (proj2 (proj2 unify_symmetry))
             (Relation "f" [Atom "a"]) (Relation "f" [Atom "b"])
             (Env ∅) Failure).
    + reflexivity.
    + reflexivity.
    + exists 2. reflexivity.
  - apply (proj1 (proj2 (proj2 (proj2 unify_symmetry)))
             (Relation "p" [Var "X"; Atom "b"])
             (Relation "p" [Atom "a"; Atom "c"]) ∅ Failure).
    + intros v t Hv. by rewrite lookup_empty in Hv.
    + right. left. reflexivity.
    + exists 3. reflexivity.
  - apply (proj1 (proj2 (proj2 (proj2 (proj2 unify_symmetry))))).
    exact I.
  - apply (proj1 (proj2 (proj2 (proj2 (proj2 (proj2 unify_symmetry)))))
             (Relation "p" [Var "X"; Atom "b"])
             (Relation "p" [Atom "a"; Var "Y"]) ∅
             (<["Y" := Atom "b"]> (<["X" := Atom "a"]> ∅))).
    + intros v t. rewrite !lookup_insert_Some, lookup_empty.
      intros [[_ <-] | [_ [[_ <-] | [_ [=]]]]]; reflexivity.
    + exists 3. reflexivity.
  - apply (proj1 (proj2 (proj2 (proj2 (proj2 (proj2 (proj2 unify_symmetry))))))
             (Var "X") (Relation "f" [Var "Z"]) {["X" := Var "Y"]}
             (<["Y" := Relation "f" [Var "Z"]]> {["X" := Var "Y"]})).
    + intros v. destruct (decide (v = "X")) as [-> | Hne].
      * exists (Var "Y"). apply ends_step with (Var "Y"); [reflexivity |].
        apply ends_here. reflexivity.
      * exists (Var v). apply ends_here. simpl.
        by rewrite lookup_singleton_ne.
    + intros v t Hv. rewrite lookup_insert_Some.
      intros [[_ <-] | [_ Ht]]; [reflexivity | congruence].
    + exists 3. reflexivity.
  - apply (proj1 (proj1
             (proj2 (proj2 (proj2 (proj2 (proj2 (proj2 (proj2
                unify_symmetry))))))
                (Relation "p" [Var "X"; Atom "a"])
                (Relation "p" [Var "Y"; Atom "b"]) ∅
                (λ v, ex_intro _ (Var v)
                        (ends_here ∅ (Var v) (lookup_empty v)))))).
    exists 3. reflexivity.
Defined.
